(** * zk-playground: content store, gallery index and chain orchestrators

    A shallow embedding of [src/lib/storage/ipfs.ts] ([IPFSService],
    [GalleryService]) and [src/lib/solana/sunspot.ts] ([SunspotService]),
    with the properties of the design document proved about it.

    Asynchronous JavaScript is embedded as a state-and-exception monad:
    an [await] is a bind, a rejected promise or a [throw] is [Thrown],
    and a [try { .. } catch { .. }] is [try_catch].  Effects that happened
    before a throw are kept, as in JavaScript. *)

From Stdlib Require Import ZArith Ascii String Sorted.
From stdpp Require Import base option list gmap strings pretty.

Set Default Proof Using "Type".

(** ** The computation monad *)

Inductive outcome (A : Type) : Type :=
  | Returned (a : A)
  | Thrown (e : string).
Arguments Returned {A} a.
Arguments Thrown {A} e.

Definition js (S A : Type) : Type := S → outcome A * S.

Definition ret {S A} (a : A) : js S A := λ s, (Returned a, s).

Definition throw {S A} (e : string) : js S A := λ s, (Thrown e, s).

Definition bind {S A B} (c : js S A) (k : A → js S B) : js S B :=
  λ s, match c s with
       | (Returned a, s') => k a s'
       | (Thrown e, s') => (Thrown e, s')
       end.

Definition try_catch {S A} (c : js S A) (handler : string → js S A) : js S A :=
  λ s, match c s with
       | (Returned a, s') => (Returned a, s')
       | (Thrown e, s') => handler e s'
       end.

Definition modify {S} (f : S → S) : js S unit := λ s, (Returned tt, f s).

Definition gets {S A} (f : S → A) : js S A := λ s, (Returned (f s), s).

Notation "'let!' x ':=' c 'in' k" := (bind c (λ x, k))
  (at level 10, x name, c at level 100, k at level 200).
Notation "c ';;' k" := (bind c (λ _, k))
  (at level 100, k at level 200, right associativity).

Definition returned {A} (o : outcome A) : bool :=
  match o with Returned _ => true | Thrown _ => false end.

(** ** JavaScript numbers and strings used by the services *)

(** [ToInt32]: the wrap-around every bitwise operator applies to its operands. *)
Definition ToInt32 (z : Z) : Z := ((z + 2 ^ 31) `mod` 2 ^ 32 - 2 ^ 31)%Z.

Definition hex_digit (d : Z) : string :=
  match d with
  | 0 => "0" | 1 => "1" | 2 => "2" | 3 => "3" | 4 => "4" | 5 => "5"
  | 6 => "6" | 7 => "7" | 8 => "8" | 9 => "9" | 10 => "a" | 11 => "b"
  | 12 => "c" | 13 => "d" | 14 => "e" | _ => "f"
  end%Z.

Fixpoint hex_go (fuel : nat) (n : Z) (acc : string) : string :=
  match fuel with
  | O => acc
  | S fuel' =>
      let acc' := hex_digit (n `mod` 16) +:+ acc in
      if (n `div` 16 =? 0)%Z then acc' else hex_go fuel' (n `div` 16) acc'
  end.

(** [n.toString(16)] for a non-negative integer [n]. *)
Definition toString16 (n : Z) : string :=
  hex_go (S (Z.to_nat (Z.log2 n))) n "".

Fixpoint repeat_string (n : nat) (s : string) : string :=
  match n with O => "" | S n' => s +:+ repeat_string n' s end.

(** [s.padStart(n, "0")]. *)
Definition padStart0 (n : nat) (s : string) : string :=
  repeat_string (n - String.length s) "0" +:+ s.

(** [s.slice(0, n)] for [n >= 0]. *)
Definition slice0 (n : nat) (s : string) : string := String.substring 0 n s.

Definition ascii_toLowerCase (a : ascii) : ascii :=
  let n := nat_of_ascii a in
  if (65 <=? n)%nat && (n <=? 90)%nat then ascii_of_nat (n + 32) else a.

(** [s.toLowerCase()], on the ASCII letters. *)
Fixpoint toLowerCase (s : string) : string :=
  match s with
  | EmptyString => EmptyString
  | String a s' => String (ascii_toLowerCase a) (toLowerCase s')
  end.

Fixpoint includes_from (fuel : nat) (s q : string) : bool :=
  if String.prefix q s then true
  else match fuel, s with
       | S fuel', String _ s' => includes_from fuel' s' q
       | _, _ => false
       end.

(** [s.includes(q)]. *)
Definition includes (s q : string) : bool := includes_from (String.length s) s q.

(** ** Artifacts *)

(** Modelled from the spec: the declarations of [SharedCircuit] and
    [GalleryCircuit] live in [@/types], outside the sources at hand.  The
    fields are those of the Artifact and GalleryEntry of the data model,
    under the names the services and pages use ([cid], [title],
    [description], [author], [timestamp], [tags], [code], [views], [likes]). *)
Record SharedCircuit := {
  cid : string;
  title : string;
  description : string;
  author : string;
  timestamp : Z;
  tags : list string;
  code : string;
}.

(** [{ ...circuit, views, likes }]: the fields of the artifact, spread, and
    the two counters. *)
Record GalleryCircuit := {
  shared : SharedCircuit;
  views : Z;
  likes : Z;
}.

(** ** localStorage

    An item holds a JSON text.  The services only ever [JSON.parse] what they
    read and [JSON.stringify] what they write, so an item is represented by
    what [JSON.parse] makes of its text: [Absent] when [getItem] answers
    [null], [Garbled] when the text does not parse, [Parsed v] otherwise. *)
Inductive item (T : Type) : Type :=
  | Absent
  | Garbled
  | Parsed (v : T).
Arguments Absent {T}.
Arguments Garbled {T}.
Arguments Parsed {T} v.

(** What a call can observe of the outside world. *)
Inductive event : Type :=
  | GetItem (key : string)
  | SetItem (key : string)
  | Fetch (url : string).

(** A [fetch] response: [response.ok], and what [response.json()] resolves
    to ([None] when it rejects). *)
Record response (T : Type) := {
  ok : bool;
  json : option T;
}.
Arguments ok {T} r.
Arguments json {T} r.

(** The host of one call: the network and the browser objects.
    [fetch_add] and [fetch_get] answer [None] when [fetch] itself rejects
    (transport failure, timeout); [localStorage_readable] is false when
    [localStorage.getItem] throws (or [localStorage] is not defined),
    [localStorage_writable] is false when [setItem] throws;
    [window_origin] is [None] where there is no [window]. *)
Record host := {
  fetch_add : list Z → option (response string);
  fetch_get : string → option (response SharedCircuit);
  localStorage_readable : bool;
  localStorage_writable : bool;
  window_origin : option string;
}.

(** What the cache can hold and [download] can hand out: an artifact, or
    some other JavaScript value that counts as true in a test (a function
    an object inherits from its prototype, the length of an array, ..),
    named by [what]. *)
Inductive value : Type :=
  | Artifact (data : SharedCircuit)
  | Other (what : string).

(** What becomes of [v[k] = data] once [v] is written with
    [JSON.stringify] and read back: the property is there ([Kept], an
    object), it is not ([Dropped], an array, whose properties other than
    its elements are left out of the text), or the assignment itself throws
    ([Refused]: [null], and a number, a text or a boolean, the services
    being strict code). *)
Inductive assignment : Type := Kept | Dropped | Refused.

(** What [JSON.parse] makes of the item of the shared circuits, when it
    parses.  [Dictionary own] is a plain object whose own properties are
    the artifacts of [own].  [Misshapen assigned shows] is any other value
    ([null], a boolean, a number, a text, an array, an object with a
    property that is no artifact): [shows k] is what it has under the key
    [k], its own or inherited, when that counts as true, and [assigned]
    is what an assignment to it comes to. *)
Inductive shared_store : Type :=
  | Dictionary (own : gmap string SharedCircuit)
  | Misshapen (assigned : assignment) (shows : string → option value).

(** The mutable state the two services work on. *)
Record browser := {
  cache : gmap string value;
  shared_circuits : item shared_store;
  gallery : item (list GalleryCircuit);
  log : list event;
}.

Definition emit (e : event) : js browser unit :=
  modify (λ b, {| cache := cache b; shared_circuits := shared_circuits b;
                  gallery := gallery b; log := log b ++ [e] |}).

Definition SHARED_KEY : string := "zk-playground-shared-circuits".
Definition STORAGE_KEY : string := "zk-playground-gallery".

(** [JSON.parse(localStorage.getItem(key) || fallback)] *)
Definition parse_item {T} (h : host) (key : string) (sel : browser → item T)
    (fallback : T) : js browser T :=
  emit (GetItem key);;
  if localStorage_readable h then
    let! it := gets sel in
    match it with
    | Absent => ret fallback
    | Garbled => throw "SyntaxError"
    | Parsed v => ret v
    end
  else throw "localStorage.getItem".

(** [localStorage.setItem(key, JSON.stringify(v))] *)
Definition store_item {T} (h : host) (key : string)
    (upd : item T → browser → browser) (v : T) : js browser unit :=
  emit (SetItem key);;
  if localStorage_writable h then modify (upd (Parsed v))
  else throw "localStorage.setItem".

Definition set_shared (it : item shared_store) (b : browser) : browser :=
  {| cache := cache b; shared_circuits := it; gallery := gallery b; log := log b |}.

Definition set_gallery (it : item (list GalleryCircuit)) (b : browser) : browser :=
  {| cache := cache b; shared_circuits := shared_circuits b; gallery := it; log := log b |}.

(** [this.cache.set(k, v)] *)
Definition cache_set (k : string) (v : value) : js browser unit :=
  modify (λ b, {| cache := <[k := v]> (cache b); shared_circuits := shared_circuits b;
                  gallery := gallery b; log := log b |}).

(** The state [b] after the events [evs], and nothing else, happened. *)
Definition logged (evs : list event) (b : browser) : browser :=
  {| cache := cache b; shared_circuits := shared_circuits b;
     gallery := gallery b; log := log b ++ evs |}.

(** ** IPFSService (src/lib/storage/ipfs.ts) *)

Module IPFSService.

Definition IPFS_GATEWAYS : list string :=
  [ "https://ipfs.io/ipfs/";
    "https://gateway.pinata.cloud/ipfs/";
    "https://cloudflare-ipfs.com/ipfs/";
    "https://dweb.link/ipfs/" ].

Definition INFURA_IPFS_API : string := "https://ipfs.infura.io:5001/api/v0".

(** [UploadResult]: the fields [cid] and [url]. *)
Record UploadResult := {
  upload_cid : string;
  upload_url : string;
}.

(** One turn of the loop of [generateMockHash], on the UTF-16 code unit
    [char]:  [hash = ((hash << 5) - hash) + char; hash = hash & hash]. *)
Definition hash_step (hash char : Z) : Z :=
  let hash := (ToInt32 (hash ≪ 5) - hash + char)%Z in
  Z.land (ToInt32 hash) (ToInt32 hash).

Definition hash_loop (content : list Z) : Z := fold_left hash_step content 0%Z.

(** [content] is the string as the sequence of its UTF-16 code units
    ([content.charCodeAt(i)]). *)
Definition generateMockHash (content : list Z) : string :=
  slice0 44 (padStart0 44 (toString16 (Z.abs (hash_loop content)))).

(** The properties every object inherits from [Object.prototype], by
    name. *)
Definition Object_prototype : list string :=
  [ "constructor"; "__defineGetter__"; "__defineSetter__"; "hasOwnProperty";
    "__lookupGetter__"; "__lookupSetter__"; "isPrototypeOf";
    "propertyIsEnumerable"; "toString"; "valueOf"; "__proto__";
    "toLocaleString" ].

(** [circuits[cid]], when it counts as true: an own property first, then
    what the object inherits. *)
Definition property (circuits : shared_store) (cid : string) : option value :=
  match circuits with
  | Dictionary own =>
      match own !! cid with
      | Some data => Some (Artifact data)
      | None =>
          if bool_decide (cid ∈ Object_prototype)
          then Some (Other ("Object.prototype." +:+ cid))
          else None
      end
  | Misshapen _ shows => shows cid
  end.

(** [circuits[mockCid] = data], for a mock identifier: what [circuits]
    will be once written with [JSON.stringify] and read back. *)
Definition assign (circuits : shared_store) (mockCid : string) (data : SharedCircuit)
    : js browser shared_store :=
  match circuits with
  | Dictionary own => ret (Dictionary (<[mockCid := data]> own))
  | Misshapen Kept shows =>
      ret (Misshapen Kept
             (λ k, if String.eqb k mockCid then Some (Artifact data) else shows k))
  | Misshapen Dropped shows => ret (Misshapen Dropped shows)
  | Misshapen Refused _ => throw "TypeError: Cannot create property"
  end.

(** [await fetch(url, ..)] *)
Definition fetch {T} (url : string) (answer : option (response T)) : js browser (response T) :=
  emit (Fetch url);;
  match answer with
  | Some r => ret r
  | None => throw "TypeError: fetch failed"
  end.

(** [await response.json()] *)
Definition response_json {T} (r : response T) : js browser T :=
  match json r with
  | Some v => ret v
  | None => throw "SyntaxError"
  end.

(** [window.location.origin] *)
Definition window_location_origin (h : host) : js browser string :=
  match window_origin h with
  | Some o => ret o
  | None => throw "ReferenceError: window is not defined"
  end.

Section upload.

(** [JSON.stringify] on artifacts, as the code units of the text. *)
Variable JSON_stringify : SharedCircuit → list Z.

Definition mockCid (data : SharedCircuit) : string :=
  "Qm" +:+ generateMockHash (JSON_stringify data).

Definition upload (h : host) (data : SharedCircuit) : js browser UploadResult :=
  let content := JSON_stringify data in
  try_catch
    (let! response := fetch (INFURA_IPFS_API +:+ "/add") (fetch_add h content) in
     if negb (ok response) then throw "IPFS upload failed"
     else
       let! cid := response_json response in
       cache_set cid (Artifact data);;
       ret {| upload_cid := cid;
              upload_url := default "" (head IPFS_GATEWAYS) +:+ cid |})
    (λ _,
       let mockCid := mockCid data in
       try_catch
         (let! circuits := parse_item h SHARED_KEY shared_circuits (Dictionary ∅) in
          let! circuits := assign circuits mockCid data in
          store_item h SHARED_KEY set_shared circuits)
         (λ _, ret tt);;
       cache_set mockCid (Artifact data);;
       let! origin := window_location_origin h in
       ret {| upload_cid := mockCid;
              upload_url := origin +:+ "/share/" +:+ mockCid |}).

End upload.

(** The [for (const gateway of IPFS_GATEWAYS)] loop of [download], and the
    [throw] that follows it. *)
Fixpoint download_from (h : host) (cid : string) (gateways : list string)
    : js browser value :=
  match gateways with
  | [] => throw ("Failed to fetch circuit from IPFS: " +:+ cid)
  | gateway :: rest =>
      let! found :=
        try_catch
          (let! response := fetch (gateway +:+ cid) (fetch_get h (gateway +:+ cid)) in
           if ok response then
             let! data := response_json response in
             cache_set cid (Artifact data);;
             ret (Some (Artifact data))
           else ret None)
          (λ _, ret None) in
      match found with
      | Some data => ret data
      | None => download_from h cid rest
      end
  end.

Definition download (h : host) (cid : string) : js browser value :=
  let! cached := gets (λ b, cache b !! cid) in
  match cached with
  | Some data => ret data
  | None =>
      let! found :=
        try_catch
          (let! circuits := parse_item h SHARED_KEY shared_circuits (Dictionary ∅) in
           match property circuits cid with
           | Some data => cache_set cid data;; ret (Some data)
           | None => ret None
           end)
          (λ _, ret None) in
      match found with
      | Some data => ret data
      | None => download_from h cid IPFS_GATEWAYS
      end
  end.

(** A serializer to run the service on: the text of the artifact as a JSON
    object, for fields that need no escaping. *)
Definition code_units (s : string) : list Z :=
  (λ a, Z.of_nat (nat_of_ascii a)) <$> list_ascii_of_string s.

Definition dquote : string := String (ascii_of_nat 34) EmptyString.

Definition quote (s : string) : string := dquote +:+ s +:+ dquote.

Fixpoint join_quoted (l : list string) : string :=
  match l with
  | [] => ""
  | [s] => quote s
  | s :: l' => quote s +:+ "," +:+ join_quoted l'
  end.

Definition plain_stringify (c : SharedCircuit) : list Z :=
  code_units
    ("{" +:+ quote "cid" +:+ ":" +:+ quote (cid c) +:+ ","
         +:+ quote "title" +:+ ":" +:+ quote (title c) +:+ ","
         +:+ quote "description" +:+ ":" +:+ quote (description c) +:+ ","
         +:+ quote "author" +:+ ":" +:+ quote (author c) +:+ ","
         +:+ quote "timestamp" +:+ ":" +:+ pretty (timestamp c) +:+ ","
         +:+ quote "tags" +:+ ":[" +:+ join_quoted (tags c) +:+ "],"
         +:+ quote "code" +:+ ":" +:+ quote (code c) +:+ "}").

(** *** What the design document says of [download], in its words *)

(** "first 2xx JSON response": what one gateway contributes. *)
Definition gateway_answer (h : host) (cid gateway : string) : option SharedCircuit :=
  match fetch_get h (gateway +:+ cid) with
  | Some r => if ok r then json r else None
  | None => None
  end.

(** "each configured gateway in fixed priority order, first [..] wins; a
    timed-out or failed gateway is skipped, not retried": the requests made
    and the artifact found. *)
Fixpoint first_gateway (h : host) (cid : string) (gateways : list string)
    : list event * option SharedCircuit :=
  match gateways with
  | [] => ([], None)
  | gateway :: rest =>
      match gateway_answer h cid gateway with
      | Some data => ([Fetch (gateway +:+ cid)], Some data)
      | None =>
          let '(evs, found) := first_gateway h cid rest in
          (Fetch (gateway +:+ cid) :: evs, found)
      end
  end.

(** "durable local store exact hit": the artifact the stored object has
    under the identifier as its own; of a stored value that is no such
    object, whatever it shows there. *)
Definition local_hit (h : host) (b : browser) (cid : string) : option value :=
  if localStorage_readable h then
    match shared_circuits b with
    | Parsed (Dictionary own) => Artifact <$> own !! cid
    | Parsed (Misshapen _ shows) => shows cid
    | Absent | Garbled => None
    end
  else None.

(** "(1) in-memory cache exact hit, (2) durable local store exact hit,
    (3) each configured gateway": where an identifier resolves, and what
    was attempted on the way. *)
Definition resolution (h : host) (b : browser) (cid : string)
    : list event * option value :=
  match cache b !! cid with
  | Some data => ([], Some data)
  | None =>
      match local_hit h b cid with
      | Some data => ([GetItem SHARED_KEY], Some data)
      | None =>
          let '(evs, found) := first_gateway h cid IPFS_GATEWAYS in
          (GetItem SHARED_KEY :: evs, Artifact <$> found)
      end
  end.

(** The remote provider did not yield an identifier: transport failure, a
    non-2xx answer, or a body that is not JSON. *)
Definition remote_failed (h : host) (content : list Z) : bool :=
  match fetch_add h content with
  | Some r => negb (ok r) || bool_decide (json r = None)
  | None => true
  end.

(** *** Scenes to run the service in *)

(** A browser cut off from every remote endpoint, and a host whose provider
    answers but that has neither [window] nor localStorage. *)
Definition offline : host :=
  {| fetch_add := λ _, None;
     fetch_get := λ _, None;
     localStorage_readable := true;
     localStorage_writable := true;
     window_origin := Some "http://localhost:3000" |}.

Definition online : host :=
  {| fetch_add := λ _, Some {| ok := true; json := Some "QmRemote" |};
     fetch_get := λ _, None;
     localStorage_readable := false;
     localStorage_writable := false;
     window_origin := None |}.

Definition fresh : browser :=
  {| cache := ∅; shared_circuits := Absent; gallery := Absent; log := [] |}.

Definition demo : SharedCircuit :=
  {| cid := ""; title := "t"; description := ""; author := "";
     timestamp := 0; tags := []; code := "fn main(){}" |}.

(** The same artifact, once with localStorage at hand and once without, in
    two different states of the cache. *)
Definition no_storage : host :=
  {| fetch_add := λ _, Some {| ok := false; json := None |};
     fetch_get := λ _, None;
     localStorage_readable := false;
     localStorage_writable := false;
     window_origin := Some "https://zk.example" |}.

Definition warm : browser :=
  {| cache := {[ "QmOther" := Artifact demo ]}; shared_circuits := Garbled;
     gallery := Absent; log := [GetItem STORAGE_KEY] |}.

(** *** The other methods of the service *)

(** [getIPFSUrl(cid)] *)
Definition getIPFSUrl (cid : string) : string :=
  default "" (head IPFS_GATEWAYS) +:+ cid.

(** [getShareUrl(cid)]: relative where there is no [window]. *)
Definition getShareUrl (h : host) (cid : string) : string :=
  match window_origin h with
  | Some origin => origin +:+ "/share/" +:+ cid
  | None => "/share/" +:+ cid
  end.

(** [clearCache()] *)
Definition clearCache : js browser unit :=
  modify (λ b, {| cache := ∅; shared_circuits := shared_circuits b;
                  gallery := gallery b; log := log b |}).

(** [pin(cid)]; [answer] is what the provider's pin endpoint does with the
    request ([None] when [fetch] rejects). *)
Definition pin {T} (answer : string → option (response T)) (cid : string)
    : js browser bool :=
  try_catch
    (let url := INFURA_IPFS_API +:+ "/pin/add?arg=" +:+ cid in
     let! response := fetch url (answer url) in
     ret (ok response))
    (λ _, ret false).

(** Reading a hexadecimal numeral back ([parseInt(s, 16)] on a string of
    hexadecimal digits), to state what [generateMockHash] encodes. *)
Definition hex_digit_value (a : ascii) : option Z :=
  let n := Z.of_nat (nat_of_ascii a) in
  if (48 <=? n)%Z && (n <=? 57)%Z then Some (n - 48)%Z
  else if (97 <=? n)%Z && (n <=? 102)%Z then Some (n - 87)%Z
  else None.

Fixpoint parse_hex_from (acc : Z) (s : string) : option Z :=
  match s with
  | EmptyString => Some acc
  | String a s' =>
      match hex_digit_value a with
      | Some d => parse_hex_from (16 * acc + d) s'
      | None => None
      end
  end.

Definition parse_hex (s : string) : option Z := parse_hex_from 0 s.

(** Two artifacts that differ in their titles only, ["Aa"] and ["BB"]. *)
Definition titled (t : string) : SharedCircuit :=
  {| cid := ""; title := t; description := ""; author := "";
     timestamp := 0; tags := []; code := "fn main(){}" |}.

(** *** More scenes, and what a fallback upload finds *)

(** The local store holds an object, or nothing yet: what is assigned to
    the parsed value is written back with it. *)
Definition holds_object (b : browser) : Prop :=
  match shared_circuits b with
  | Absent | Parsed (Dictionary _) | Parsed (Misshapen Kept _) => True
  | Garbled | Parsed (Misshapen _ _) => False
  end.

(** The item of the shared circuits holds the text of an empty array.
    Of what an array shows, the scene has the properties that every object
    inherits; an array inherits more, its methods, under names that are
    not asked for here. *)
Definition stored_array : browser :=
  {| cache := ∅;
     shared_circuits :=
       Parsed (Misshapen Dropped
                 (λ k, if bool_decide (k ∈ Object_prototype)
                       then Some (Other ("Object.prototype." +:+ k)) else None));
     gallery := Absent; log := [] |}.

(** A browser whose gateways all hold the artifact [demo]. *)
Definition served : host :=
  {| fetch_add := λ _, None;
     fetch_get := λ _, Some {| ok := true; json := Some demo |};
     localStorage_readable := true;
     localStorage_writable := true;
     window_origin := Some "http://localhost:3000" |}.


End IPFSService.

(** ** GalleryService (src/lib/storage/ipfs.ts) *)

Module GalleryService.

(** ['recent' | 'popular' | 'all'] *)
Inductive filter : Type := recent | popular | all.

(** [circuits.sort((a, b) => key(b) - key(a))]: [Array.prototype.sort] is
    stable, so this is the stable sort by decreasing key. *)
Fixpoint insert_desc (key : GalleryCircuit → Z) (x : GalleryCircuit)
    (l : list GalleryCircuit) : list GalleryCircuit :=
  match l with
  | [] => [x]
  | y :: l' => if (key x <? key y)%Z then y :: insert_desc key x l' else x :: l
  end.

Definition sort_desc (key : GalleryCircuit → Z) (l : list GalleryCircuit)
    : list GalleryCircuit :=
  foldr (insert_desc key) [] l.

(** [l.slice(0, limit)]: a negative [limit] counts from the end. *)
Definition slice_to {A} (l : list A) (limit : Z) : list A :=
  if (limit <? 0)%Z then take (Z.to_nat (Z.of_nat (length l) + limit)) l
  else take (Z.to_nat limit) l.

(** [l.findIndex(p)]: the first index where [p] holds, [-1] when none. *)
Fixpoint findIndex_from {A} (p : A → bool) (l : list A) (i : Z) : Z :=
  match l with
  | [] => (-1)%Z
  | x :: l' => if p x then i else findIndex_from p l' (i + 1)%Z
  end.

Definition findIndex {A} (p : A → bool) (l : list A) : Z := findIndex_from p l 0%Z.

(** [l.find(p)]: the object found is an element of the array, and is
    represented by its position; [None] for [undefined]. *)
Definition find {A} (p : A → bool) (l : list A) : option nat :=
  let i := findIndex p l in
  if (i <? 0)%Z then None else Some (Z.to_nat i).

Definition has_cid (id : string) (c : GalleryCircuit) : bool :=
  bool_decide (cid (shared c) = id).

Definition getCircuits (h : host) (filter : filter) (limit : Z)
    : js browser (list GalleryCircuit) :=
  try_catch
    (let! circuits := parse_item h STORAGE_KEY gallery [] in
     let circuits :=
       match filter with
       | recent => sort_desc (λ c, timestamp (shared c)) circuits
       | popular => sort_desc (λ c, views c + likes c)%Z circuits
       | all => circuits
       end in
     ret (slice_to circuits limit))
    (λ _, ret []).

Definition addCircuit (h : host) (circuit : SharedCircuit) : js browser GalleryCircuit :=
  let galleryCircuit := {| shared := circuit; views := 0; likes := 0 |} in
  try_catch
    (let! circuits := parse_item h STORAGE_KEY gallery [] in
     let existing := findIndex (has_cid (cid circuit)) circuits in
     let circuits :=
       if (0 <=? existing)%Z then <[Z.to_nat existing := galleryCircuit]> circuits
       else galleryCircuit :: circuits in
     let trimmed := take 100 circuits in
     store_item h STORAGE_KEY set_gallery trimmed;;
     ret galleryCircuit)
    (λ _, ret galleryCircuit).

(** The counters are JavaScript numbers, doubles; the model keeps those
    that are whole and finite.  [round_to_double m] is the double nearest
    to the whole number [m], a tie going to the even significand: a whole
    number of at most 53 bits is a double itself, a longer one is rounded
    to a multiple of the power of two that its 53 leading bits leave
    over. *)
Definition round_to_double (m : Z) : Z :=
  let k := (Z.log2 (Z.abs m) - 52)%Z in
  if (k <=? 0)%Z then m
  else
    let q := (Z.abs m `div` 2 ^ k)%Z in
    let r := (Z.abs m `mod` 2 ^ k)%Z in
    let half := (2 ^ (k - 1))%Z in
    let q' := if (r <? half)%Z then q
              else if (half <? r)%Z then (q + 1)%Z
              else if Z.even q then q else (q + 1)%Z in
    (Z.sgn m * (q' * 2 ^ k))%Z.

(** [n++] on a counter that holds [n]: the sum, as a double. *)
Definition incr (n : Z) : Z := round_to_double (n + 1).

(** [circuit.views++] and [circuit.likes++] *)
Definition views_incr (c : GalleryCircuit) : GalleryCircuit :=
  {| shared := shared c; views := incr (views c); likes := likes c |}.

Definition likes_incr (c : GalleryCircuit) : GalleryCircuit :=
  {| shared := shared c; views := views c; likes := incr (likes c) |}.

(** The object [find] returned is the array's own element: updating its
    counter updates the array that is then written back. *)
Definition incrementViews (h : host) (cid : string) : js browser unit :=
  try_catch
    (let! circuits := parse_item h STORAGE_KEY gallery [] in
     match find (has_cid cid) circuits with
     | Some circuit => store_item h STORAGE_KEY set_gallery (alter views_incr circuit circuits)
     | None => ret tt
     end)
    (λ _, ret tt).

Definition incrementLikes (h : host) (cid : string) : js browser unit :=
  try_catch
    (let! circuits := parse_item h STORAGE_KEY gallery [] in
     match find (has_cid cid) circuits with
     | Some circuit => store_item h STORAGE_KEY set_gallery (alter likes_incr circuit circuits)
     | None => ret tt
     end)
    (λ _, ret tt).

Definition searchCircuits (h : host) (query : string) : js browser (list GalleryCircuit) :=
  try_catch
    (let! circuits := parse_item h STORAGE_KEY gallery [] in
     let lowerQuery := toLowerCase query in
     ret (List.filter
            (λ c,
               includes (toLowerCase (title (shared c))) lowerQuery
               || includes (toLowerCase (description (shared c))) lowerQuery
               || existsb (λ t, includes (toLowerCase t) lowerQuery) (tags (shared c)))
            circuits))
    (λ _, ret []).

(** *** The gallery, as the design document speaks of it, and scenes *)

(** The entries of the persisted collection; none when the item is missing
    or is not JSON. *)
Definition entries (b : browser) : list GalleryCircuit :=
  match gallery b with
  | Parsed circuits => circuits
  | Absent | Garbled => []
  end.

Definition lacks (id : string) (circuits : list GalleryCircuit) : Prop :=
  Forall (λ c, cid (shared c) ≠ id) circuits.

(** A gallery of two entries to run the service on. *)
Definition merkle : SharedCircuit :=
  {| cid := "Qm2"; title := "Merkle Proof"; description := "membership";
     author := "zkdev.eth"; timestamp := 7; tags := ["tree"]; code := "fn main(){}" |}.

Definition age_check : SharedCircuit :=
  {| cid := "Qm1"; title := "Age"; description := "private age check";
     author := "zkdev.eth"; timestamp := 3; tags := ["privacy"]; code := "fn main(){}" |}.

Definition shelf : browser :=
  {| cache := ∅; shared_circuits := Absent;
     gallery := Parsed [ {| shared := age_check; views := 5; likes := 2 |};
                         {| shared := merkle; views := 1; likes := 1 |} ];
     log := [] |}.

Definition here : host :=
  {| fetch_add := λ _, None;
     fetch_get := λ _, None;
     localStorage_readable := true;
     localStorage_writable := true;
     window_origin := Some "http://localhost:3000" |}.

(** The upsert of the design document: an entry with the identifier of the
    artifact being added keeps its counters while it takes the artifact's
    fields. *)
Definition upsert_preserves_counters (h : host) (b : browser) (A : SharedCircuit) : Prop :=
  ∀ e, e ∈ entries b → cid (shared e) = cid A →
    ∃ e', e' ∈ entries (snd (addCircuit h A b))
        ∧ shared e' = A ∧ views e' = views e ∧ likes e' = likes e.

Definition age_check_v2 : SharedCircuit :=
  {| cid := "Qm1"; title := "Age (v2)"; description := "private age check";
     author := "zkdev.eth"; timestamp := 9; tags := ["privacy"]; code := "fn main(){}" |}.

(** The persisted collection is missing, unreadable or unparseable. *)
Definition degraded (h : host) (b : browser) : Prop :=
  gallery b = Absent ∨ localStorage_readable h = false ∨ gallery b = Garbled.

Definition corrupt : browser :=
  {| cache := ∅; shared_circuits := Absent; gallery := Garbled; log := [] |}.

Definition locked : host :=
  {| fetch_add := λ _, None;
     fetch_get := λ _, None;
     localStorage_readable := false;
     localStorage_writable := false;
     window_origin := Some "http://localhost:3000" |}.

(** *** Orders, identifiers and matches *)




(** The identifiers of a collection, in its order. *)
Definition cids (g : list GalleryCircuit) : list string :=
  (λ c, cid (shared c)) <$> g.

(** What [addCircuit] makes of the collection before it cuts it. *)
Definition upserted (A : SharedCircuit) (g : list GalleryCircuit) : list GalleryCircuit :=
  let galleryCircuit := {| shared := A; views := 0; likes := 0 |} in
  let existing := findIndex (has_cid (cid A)) g in
  if (0 <=? existing)%Z then <[Z.to_nat existing := galleryCircuit]> g
  else galleryCircuit :: g.

(** A gallery whose one entry has been seen 2^53 times. *)
Definition crowded : browser :=
  {| cache := ∅; shared_circuits := Absent;
     gallery := Parsed [ {| shared := merkle; views := 2 ^ 53; likes := 0 |} ];
     log := [] |}.

(** [n] calls in a row. *)
Fixpoint times {S} (n : nat) (c : js S unit) : js S unit :=
  match n with
  | O => ret tt
  | S n' => c;; times n' c
  end.

(** [q] occurs in [s]. *)
Definition occurs_in (q s : string) : Prop := ∃ pre suf, s = pre +:+ q +:+ suf.

(** An entry matches a query: the query, in lower case, occurs in the
    lower-cased title, description or one of the tags. *)
Definition matches (query : string) (c : GalleryCircuit) : Prop :=
  occurs_in (toLowerCase query) (toLowerCase (title (shared c)))
  ∨ occurs_in (toLowerCase query) (toLowerCase (description (shared c)))
  ∨ ∃ t, t ∈ tags (shared c) ∧ occurs_in (toLowerCase query) (toLowerCase t).

End GalleryService.

(** ** SunspotService (src/lib/solana/sunspot.ts) *)

Module SunspotService.

(** [DeploymentNetwork]: ['devnet' | 'mainnet-beta' | 'testnet'] *)
Inductive DeploymentNetwork : Type := devnet | mainnet_beta | testnet.

Definition LAMPORTS_PER_SOL : Z := 1000000000.

(** A public key, by its base-58 text. *)
Definition PublicKey : Type := string.

Definition SystemProgram_programId : PublicKey := "11111111111111111111111111111111".

Record AccountMeta := {
  pubkey : PublicKey;
  isSigner : bool;
  isWritable : bool;
}.

Inductive Instruction : Type :=
  | SystemProgram_createAccount
      (fromPubkey newAccountPubkey : PublicKey) (lamports space : Z) (programId : PublicKey)
  | TransactionInstruction
      (keys : list AccountMeta) (programId : PublicKey) (data : list Z).

Record Transaction := {
  instructions : list Instruction;
  recentBlockhash : option string;
  feePayer : option PublicKey;
  signatures : list PublicKey;
}.

(** What [confirmTransaction] resolves to: the [err] of the transaction
    ([None] for [null]). *)
Record SignatureResult := {
  err : option string;
}.

Record SunspotDeploymentConfig := {
  verificationKey : list Z;
  network : DeploymentNetwork;
  circuitName : string;
}.

(** [cost] is [lamports / LAMPORTS_PER_SOL], kept as that fraction. *)
Record SunspotDeploymentResult := {
  programId : string;
  transactionSignature : string;
  deployed_network : DeploymentNetwork;
  cost : Z * Z;
}.

Record VerificationConfig := {
  verifier_programId : string;
  proof : list Z;
  publicInputs : list string;
  verification_network : DeploymentNetwork;
}.

Record OnChainVerificationResult := {
  isValid : bool;
  verification_signature : string;
  verified_network : DeploymentNetwork;
  verified_at : Z;
}.

(** The calls that leave the service, and the progress it reports. *)
Inductive call : Type :=
  | Keypair_generate
  | getMinimumBalanceForRentExemption (size : Z)
  | getLatestBlockhash
  | signTransaction (transaction : Transaction)
  | sendRawTransaction (signed : Transaction)
  | confirmTransaction (signature : string).

Inductive observation : Type :=
  | Progress (progress : Z) (message : string)
  | Called (c : call).

Definition trace : Type := list observation.

(** The ledger as one call meets it: what each request is answered with
    ([Thrown] for a rejected promise or an exception).  [sendRaw] is what
    becomes of [sendRawTransaction(signed.serialize())]: it answers for
    [serialize] too, which throws on a transaction that lacks a signature
    or is too large. *)
Record Connection := {
  generate : PublicKey;
  minimumBalanceForRentExemption : Z → outcome Z;
  latestBlockhash : outcome (string * Z);
  sendRaw : Transaction → outcome string;
  confirm : string → string → Z → outcome SignatureResult;
  PublicKey_new : string → outcome PublicKey;
  Date_now : Z;
}.

Definition observe (o : observation) : js trace unit := modify (λ t, t ++ [o]).

(** [await] of an outside call: it is logged, then answered. *)
Definition await {A} (c : call) (answer : outcome A) : js trace A :=
  observe (Called c);; λ t, (answer, t).

(** The optional callback [onProgress]. *)
Definition callback : Type := Z → string → js trace unit.

(** [onProgress?.(progress, message)] *)
Definition report (onProgress : option callback) (progress : Z) (message : string)
    : js trace unit :=
  match onProgress with
  | Some f => f progress message
  | None => ret tt
  end.

(** Base 58, as the ledger's library reads keys, block hashes and
    signatures: the digits, the number a text writes, and the length of
    the bytes it decodes to (a leading [1] is a zero byte). *)
Definition base58_alphabet : string :=
  "123456789ABCDEFGHJKLMNPQRSTUVWXYZabcdefghijkmnopqrstuvwxyz".

Fixpoint index_in (a : ascii) (s : string) : option Z :=
  match s with
  | EmptyString => None
  | String b s' => if Ascii.eqb a b then Some 0%Z else Z.succ <$> index_in a s'
  end.

Fixpoint base58_value (acc : Z) (s : string) : option Z :=
  match s with
  | EmptyString => Some acc
  | String a s' =>
      match index_in a base58_alphabet with
      | Some d => base58_value (58 * acc + d)%Z s'
      | None => None
      end
  end.

Fixpoint leading_ones (s : string) : nat :=
  match s with
  | String a s' => if Ascii.eqb a "1" then S (leading_ones s') else 0
  | EmptyString => 0
  end.

Definition byte_length (n : Z) : nat :=
  if (n =? 0)%Z then 0 else S (Z.to_nat (Z.log2 n `div` 8)).

(** [bs58.decode(text).length] *)
Definition bs58_decode_length (text : string) : outcome nat :=
  match base58_value 0 text with
  | Some n => Returned (leading_ones text + byte_length n)
  | None => Thrown "Non-base58 character"
  end.

(** [new PublicKey(text)] as the library does it: the text has to decode
    to 32 bytes. *)
Definition web3_PublicKey (text : string) : outcome PublicKey :=
  match bs58_decode_length text with
  | Returned 32 => Returned text
  | Returned _ => Thrown "Invalid public key input"
  | Thrown e => Thrown e
  end.

(** The transaction with the signature of [signer] added. *)
Definition signed_by (transaction : Transaction) (signer : PublicKey) : Transaction :=
  {| instructions := instructions transaction;
     recentBlockhash := recentBlockhash transaction;
     feePayer := feePayer transaction;
     signatures := signatures transaction ++ [signer] |}.

(** [transaction.partialSign(keypair)]: the library serializes the message
    to be signed, and throws when the recent block hash is missing or does
    not decode to 32 bytes. *)
Definition partialSign (transaction : Transaction) (signer : PublicKey)
    : outcome Transaction :=
  match recentBlockhash transaction with
  | None => Thrown "Transaction recentBlockhash required"
  | Some blockhash =>
      match bs58_decode_length blockhash with
      | Returned n =>
          if (n =? 32)%nat then Returned (signed_by transaction signer)
          else Thrown "Blob.encode[recentBlockhash] requires (length 32) Uint8Array as src"
      | Thrown e => Thrown e
      end
  end.

Fixpoint join (sep : string) (l : list string) : string :=
  match l with
  | [] => ""
  | [s] => s
  | s :: l' => s +:+ sep +:+ join sep l'
  end.

(** [Buffer.from(text)], the bytes of an ASCII text. *)
Definition Buffer_from (text : string) : list Z :=
  (λ a, Z.of_nat (nat_of_ascii a)) <$> list_ascii_of_string text.

Definition deployVerifier (connection : Connection) (this_network : DeploymentNetwork)
    (config : SunspotDeploymentConfig) (walletPublicKey : PublicKey)
    (sign : Transaction → outcome Transaction) (onProgress : option callback)
    : js trace SunspotDeploymentResult :=
  report onProgress 10 "Preparing deployment...";;
  let! verifierAccount := await Keypair_generate (Returned (generate connection)) in
  let programId := verifierAccount in
  report onProgress 20 "Calculating deployment cost...";;
  let verifierDataSize := (Z.of_nat (length (verificationKey config)) + 64)%Z in
  let! lamports :=
    await (getMinimumBalanceForRentExemption verifierDataSize)
      (minimumBalanceForRentExemption connection verifierDataSize) in
  report onProgress 30 "Creating verifier account...";;
  let createAccountIx :=
    SystemProgram_createAccount walletPublicKey verifierAccount lamports
      verifierDataSize SystemProgram_programId in
  let storeDataIx :=
    TransactionInstruction
      [ {| pubkey := verifierAccount; isSigner := false; isWritable := true |};
        {| pubkey := walletPublicKey; isSigner := true; isWritable := false |} ]
      SystemProgram_programId (verificationKey config) in
  report onProgress 40 "Building transaction...";;
  let transaction :=
    {| instructions := [createAccountIx]; recentBlockhash := None;
       feePayer := None; signatures := [] |} in
  let! latest := await getLatestBlockhash (latestBlockhash connection) in
  let '(blockhash, lastValidBlockHeight) := latest in
  let transaction :=
    {| instructions := instructions transaction; recentBlockhash := Some blockhash;
       feePayer := Some walletPublicKey; signatures := signatures transaction |} in
  report onProgress 50 "Signing transaction...";;
  let! transaction := (λ t, (partialSign transaction verifierAccount, t)) in
  let! signedTransaction := await (signTransaction transaction) (sign transaction) in
  report onProgress 70 "Sending transaction...";;
  let! signature :=
    await (sendRawTransaction signedTransaction) (sendRaw connection signedTransaction) in
  report onProgress 85 "Confirming transaction...";;
  await (confirmTransaction signature)
    (confirm connection signature blockhash lastValidBlockHeight);;
  report onProgress 100 "Deployment complete!";;
  ret {| programId := programId;
         transactionSignature := signature;
         deployed_network := this_network;
         cost := (lamports, LAMPORTS_PER_SOL) |}.

Definition verifyProofOnChain (connection : Connection) (this_network : DeploymentNetwork)
    (config : VerificationConfig) (walletPublicKey : PublicKey)
    (sign : Transaction → outcome Transaction) (onProgress : option callback)
    : js trace OnChainVerificationResult :=
  report onProgress 10 "Preparing verification...";;
  let verificationData := proof config ++ Buffer_from (join "," (publicInputs config)) in
  let! verifier := (λ t, (PublicKey_new connection (verifier_programId config), t)) in
  let verifyIx :=
    TransactionInstruction
      [ {| pubkey := verifier; isSigner := false; isWritable := false |};
        {| pubkey := walletPublicKey; isSigner := true; isWritable := false |} ]
      SystemProgram_programId verificationData in
  report onProgress 30 "Building verification transaction...";;
  let transaction :=
    {| instructions := [verifyIx]; recentBlockhash := None;
       feePayer := None; signatures := [] |} in
  let! latest := await getLatestBlockhash (latestBlockhash connection) in
  let '(blockhash, lastValidBlockHeight) := latest in
  let transaction :=
    {| instructions := instructions transaction; recentBlockhash := Some blockhash;
       feePayer := Some walletPublicKey; signatures := signatures transaction |} in
  report onProgress 50 "Signing verification transaction...";;
  let! signedTransaction := await (signTransaction transaction) (sign transaction) in
  report onProgress 70 "Sending verification transaction...";;
  let! signature :=
    await (sendRawTransaction signedTransaction) (sendRaw connection signedTransaction) in
  report onProgress 85 "Confirming verification...";;
  await (confirmTransaction signature)
    (confirm connection signature blockhash lastValidBlockHeight);;
  report onProgress 100 "Verification complete!";;
  ret {| isValid := true;
         verification_signature := signature;
         verified_network := this_network;
         verified_at := Date_now connection |}.

(** A callback that does nothing but take note of what it is handed. *)
Definition recorder : callback := λ progress message, observe (Progress progress message).

Definition progress_values (t : trace) : list Z :=
  omap (λ o, match o with Progress p _ => Some p | Called _ => None end) t.

(** *** The stages of the design document *)







(** *** Traces, and a ledger to run the service on *)

(** The transaction [deployVerifier] hands to the signer. *)
Definition deployment_transaction (size lamports : Z) (verifier wallet : PublicKey)
    (blockhash : string) : Transaction :=
  {| instructions :=
       [SystemProgram_createAccount wallet verifier lamports size SystemProgram_programId];
     recentBlockhash := Some blockhash;
     feePayer := Some wallet;
     signatures := [verifier] |}.

(** What a successful [deployVerifier] reports and calls, in order. *)
Definition deployment_trace (size : Z) (unsigned signed : Transaction)
    (signature : string) : trace :=
  [ Progress 10 "Preparing deployment...";
    Called Keypair_generate;
    Progress 20 "Calculating deployment cost...";
    Called (getMinimumBalanceForRentExemption size);
    Progress 30 "Creating verifier account...";
    Progress 40 "Building transaction...";
    Called getLatestBlockhash;
    Progress 50 "Signing transaction...";
    Called (signTransaction unsigned);
    Progress 70 "Sending transaction...";
    Called (sendRawTransaction signed);
    Progress 85 "Confirming transaction...";
    Called (confirmTransaction signature);
    Progress 100 "Deployment complete!" ].

(** What a successful [verifyProofOnChain] reports and calls, in order. *)
Definition verification_trace (unsigned signed : Transaction) (signature : string) : trace :=
  [ Progress 10 "Preparing verification...";
    Progress 30 "Building verification transaction...";
    Called getLatestBlockhash;
    Progress 50 "Signing verification transaction...";
    Called (signTransaction unsigned);
    Progress 70 "Sending verification transaction...";
    Called (sendRawTransaction signed);
    Progress 85 "Confirming verification...";
    Called (confirmTransaction signature);
    Progress 100 "Verification complete!" ].

(** Keys of 32 bytes, a block hash of 32 bytes and a signature of 64. *)
Definition verifier_key : PublicKey := "4Nd1mBQtrMJVYVfKf2PJy9NZUZdTAsp7D4xWLs4gDB4T".

Definition wallet_key : PublicKey := "vines1vzrYbzLMRdu58ou5XTby4qAqVRLmqo36NKPTg".

Definition program_key : string := "83astBRguLMdt2h5U1Tpdq5tjFoJ6noeGwaY3mDLVcri".

Definition recent_blockhash : string := "EkSnNWid2cvwEVnVx9aBqawnmiCNiDgp3gUdkDPTKN1N".

Definition signature1 : string :=
  "5VERv8NMvzbJMEkV8xnrLkEaWRtSz9CosKDYjCJjBRnbJLgp8uirBgmQpjKhoR4tjF3ZpRzrFmBV6UjKdiSZkQUW".

(** A ledger that answers every request; the transaction it confirms
    carries an error. *)
Definition ledger : Connection :=
  {| generate := verifier_key;
     minimumBalanceForRentExemption := λ size, Returned (size * 6960 + 890880)%Z;
     latestBlockhash := Returned (recent_blockhash, 1000%Z);
     sendRaw := λ _, Returned signature1;
     confirm := λ _ _ _, Returned {| err := Some "InstructionError" |};
     PublicKey_new := web3_PublicKey;
     Date_now := 1700000000000 |}.

Definition wallet_signs : Transaction → outcome Transaction :=
  λ transaction, Returned (signed_by transaction wallet_key).

(** A signer that declines to pay for a new account, and signs anything
    else. *)
Definition wallet_declines_accounts : Transaction → outcome Transaction :=
  λ transaction,
    match instructions transaction with
    | SystemProgram_createAccount _ _ _ _ _ :: _ => Thrown "User rejected the request"
    | _ => Returned (signed_by transaction wallet_key)
    end.

Definition key3 : SunspotDeploymentConfig :=
  {| verificationKey := [1; 2; 3]%Z; network := devnet; circuitName := "age" |}.

Definition proof2 : VerificationConfig :=
  {| verifier_programId := program_key; proof := [9; 9]%Z;
     publicInputs := ["1"; "2"]; verification_network := devnet |}.

(** Non-decreasing, with 100 exactly once, at the end. *)
Definition well_reported (values : list Z) : Prop :=
  Sorted Z.le values
  ∧ length (filter (λ v, v = 100%Z) values) = 1
  ∧ last values = Some 100%Z.

(** Nothing of the Submitted and Confirmed stages: no report above 50, no
    submission, no confirmation. *)
Definition before_submission (o : observation) : Prop :=
  match o with
  | Progress progress _ => (progress ≤ 50)%Z
  | Called (sendRawTransaction _) | Called (confirmTransaction _) => False
  | Called _ => True
  end.

Definition signer_called (t : trace) : Prop :=
  ∃ transaction, Called (signTransaction transaction) ∈ t.

(** *** The rest of the service *)

(** The name of a network, as its type spells it. *)
Definition network_text (n : DeploymentNetwork) : string :=
  match n with
  | devnet => "devnet"
  | mainnet_beta => "mainnet-beta"
  | testnet => "testnet"
  end.

(** [a || b] on strings that may be [undefined]: [b] when [a] is
    [undefined] or empty. *)
Definition or_else (a : option string) (b : string) : string :=
  match a with
  | Some (String c s) => String c s
  | Some EmptyString | None => b
  end.

(** [RPC_ENDPOINTS]; [env] is [process.env.NEXT_PUBLIC_SOLANA_RPC_URL]. *)
Definition RPC_ENDPOINTS (env : option string) (n : DeploymentNetwork) : string :=
  match n with
  | devnet => or_else env "https://api.devnet.solana.com"
  | mainnet_beta => "https://api.mainnet-beta.solana.com"
  | testnet => "https://api.testnet.solana.com"
  end.

Definition EXPLORER_URLS (n : DeploymentNetwork) : string :=
  match n with
  | devnet => "https://explorer.solana.com/?cluster=devnet"
  | mainnet_beta => "https://explorer.solana.com"
  | testnet => "https://explorer.solana.com/?cluster=testnet"
  end.

(** [s.split('?')[0]] *)
Fixpoint before_question (s : string) : string :=
  match s with
  | EmptyString => EmptyString
  | String a s' => if Ascii.eqb a "?" then EmptyString else String a (before_question s')
  end.

Definition clusterParam (this_network : DeploymentNetwork) : string :=
  match this_network with
  | mainnet_beta => ""
  | _ => "&cluster=" +:+ network_text this_network
  end.

Definition getExplorerUrl (this_network : DeploymentNetwork) (signature : string) : string :=
  let baseUrl := EXPLORER_URLS this_network in
  before_question baseUrl +:+ "/tx/" +:+ signature +:+ "?" +:+ clusterParam this_network.

Definition getProgramExplorerUrl (this_network : DeploymentNetwork) (programId : string)
    : string :=
  let baseUrl := EXPLORER_URLS this_network in
  before_question baseUrl +:+ "/address/" +:+ programId +:+ "?"
    +:+ clusterParam this_network.

(** A [SunspotService]: the endpoint its connection was opened on, and its
    network. *)
Record Service := {
  connection_endpoint : string;
  service_network : DeploymentNetwork;
}.

(** [new Connection(endpoint, 'confirmed')]: the library throws a
    [TypeError] on an endpoint it does not take for an http(s) URL;
    [accepts] tells which endpoints it takes.  The connection is
    represented by its endpoint. *)
Definition new_Connection {S} (accepts : string → bool) (endpoint : string) : js S string :=
  if accepts endpoint then ret endpoint
  else throw "TypeError: Endpoint URL must start with `http:` or `https:`.".

(** The least the library asks of an endpoint: that it starts with
    [http:] or [https:]. *)
Definition http_endpoint (endpoint : string) : bool :=
  String.prefix "http:" endpoint || String.prefix "https:" endpoint.

(** [new SunspotService(network)]: when the connection cannot be opened,
    the constructor throws and there is no instance. *)
Definition new_SunspotService {S} (accepts : string → bool) (env : option string)
    (n : DeploymentNetwork) : js S Service :=
  let! connection := new_Connection accepts (RPC_ENDPOINTS env n) in
  ret {| connection_endpoint := connection; service_network := n |}.

(** [setNetwork(network)], on the instance as state: [this.network] is
    set first, so that it stays set when opening the connection throws. *)
Definition setNetwork (accepts : string → bool) (env : option string)
    (n : DeploymentNetwork) : js Service unit :=
  modify (λ this, {| connection_endpoint := connection_endpoint this;
                     service_network := n |});;
  let! connection := new_Connection accepts (RPC_ENDPOINTS env n) in
  modify (λ this, {| connection_endpoint := connection;
                     service_network := service_network this |}).

(** [getSunspotService(network?)] on the module variable [sunspotInstance]
    ([None] for [null]); it returns the instance it leaves there. *)
Definition getSunspotService (accepts : string → bool) (env : option string)
    (n : option DeploymentNetwork) : js (option Service) Service :=
  λ sunspotInstance,
    match sunspotInstance with
    | None =>
        match new_SunspotService accepts env (default devnet n) sunspotInstance with
        | (Returned instance, _) => (Returned instance, Some instance)
        | (Thrown e, _) => (Thrown e, None)
        end
    | Some instance =>
        match n with
        | Some n =>
            match setNetwork accepts env n instance with
            | (Returned _, instance) => (Returned instance, Some instance)
            | (Thrown e, instance) => (Thrown e, Some instance)
            end
        | None => (Returned instance, Some instance)
        end
    end.

(** The module variable after a series of calls of [getSunspotService],
    whatever became of each. *)
Definition after_calls (accepts : string → bool) (env : option string)
    (calls : list (option DeploymentNetwork)) : option Service → option Service :=
  fold_left (λ sunspotInstance n, snd (getSunspotService accepts env n sunspotInstance))
    calls.

(** [estimateDeploymentCost(verificationKeySize)]: the total, in lamports,
    over [LAMPORTS_PER_SOL]. *)
Definition estimateDeploymentCost (connection : Connection) (verificationKeySize : Z)
    : js trace (Z * Z) :=
  let accountSize := (verificationKeySize + 1000)%Z in
  let! rentExemption :=
    await (getMinimumBalanceForRentExemption accountSize)
      (minimumBalanceForRentExemption connection accountSize) in
  let transactionFee := 5000%Z in
  let totalLamports := (rentExemption + transactionFee)%Z in
  ret (totalLamports, LAMPORTS_PER_SOL).

(** The two requests of [requestAirdrop]. *)
Inductive faucet_call : Type :=
  | requestAirdrop_call (publicKey : PublicKey) (lamports : Z)
  | confirmTransaction_call (signature : string).

(** [requestAirdrop(publicKey, amount)], for a whole number of SOL;
    [faucet] and [confirmed] are the answers of the connection. *)
Definition requestAirdrop (this_network : DeploymentNetwork)
    (faucet : PublicKey → Z → outcome string)
    (confirmed : string → outcome SignatureResult)
    (publicKey : PublicKey) (amount : Z) : js (list faucet_call) string :=
  match this_network with
  | mainnet_beta => throw "Airdrop not available on mainnet"
  | _ =>
      let lamports := (amount * LAMPORTS_PER_SOL)%Z in
      let! signature :=
        (modify (λ t, t ++ [requestAirdrop_call publicKey lamports]);;
         λ t, (faucet publicKey lamports, t)) in
      (modify (λ t, t ++ [confirmTransaction_call signature]);;
       λ t, (confirmed signature, t));;
      ret signature
  end.

(** The network explicitly asked for last, [devnet] if none was. *)
Definition last_asked (calls : list (option DeploymentNetwork)) : DeploymentNetwork :=
  default devnet (last (omap id calls)).

(** An observation that is a call, not a report. *)
Definition is_call (o : observation) : bool :=
  match o with
  | Called _ => true
  | Progress _ _ => false
  end.

(** The same ledger, confirming a transaction that went through. *)
Definition strict_ledger : Connection :=
  {| generate := verifier_key;
     minimumBalanceForRentExemption := λ size, Returned (size * 6960 + 890880)%Z;
     latestBlockhash := Returned (recent_blockhash, 1000%Z);
     sendRaw := λ _, Returned signature1;
     confirm := λ _ _ _, Returned {| err := None |};
     PublicKey_new := web3_PublicKey;
     Date_now := 1700000000000 |}.

End SunspotService.

(** * Properties *)


Lemma returned_run {S A} (x : outcome A * S) (a : A) :
  fst x = Returned a → x = (Returned a, snd x).
Proof. destruct x as [o s]. by intros [= ->]. Qed.

Ltac run :=
  repeat (cbn [bind try_catch ret throw modify gets emit fst snd
               cache shared_circuits gallery log set_shared set_gallery] in *;
          unfold bind, try_catch, ret, throw, modify, gets, emit in *).

Module IPFSFacts.
Import IPFSService.

Lemma ToInt32_range z : (- 2 ^ 31 ≤ ToInt32 z < 2 ^ 31)%Z.
Proof.
  unfold ToInt32.
  pose proof (Z.mod_pos_bound (z + 2 ^ 31) (2 ^ 32) eq_refl). lia.
Qed.

Lemma ToInt32_id z : (- 2 ^ 31 ≤ z < 2 ^ 31)%Z → ToInt32 z = z.
Proof.
  intros Hz. unfold ToInt32. rewrite Z.mod_small; lia.
Qed.

Lemma hash_step_range hash char : (- 2 ^ 31 ≤ hash_step hash char < 2 ^ 31)%Z.
Proof.
  unfold hash_step. cbv zeta. rewrite Z.land_diag. apply ToInt32_range.
Qed.

(** The loop computes Java's string hash, [31 * hash + char], wrapped to
    32 bits. *)
Lemma hash_step_31 hash char :
  hash_step hash char = ToInt32 (31 * hash + char).
Proof.
  unfold hash_step. cbv zeta. rewrite Z.land_diag, Z.shiftl_mul_pow2 by lia.
  unfold ToInt32. f_equal.
  replace ((hash * 2 ^ 5 + 2 ^ 31) `mod` 2 ^ 32 - 2 ^ 31 - hash + char + 2 ^ 31)%Z
    with ((hash * 2 ^ 5 + 2 ^ 31) `mod` 2 ^ 32 + (char - hash))%Z by lia.
  rewrite Zplus_mod_idemp_l. f_equal. lia.
Qed.

Lemma hash_loop_range content : (- 2 ^ 31 ≤ hash_loop content < 2 ^ 31)%Z.
Proof.
  unfold hash_loop. induction content as [|c content IH] using rev_ind.
  - simpl. lia.
  - rewrite fold_left_app. simpl. apply hash_step_range.
Qed.

(** *** upload *)

Ltac case_host h b :=
  destruct (localStorage_readable h), (localStorage_writable h),
    (window_origin h);
  destruct (shared_circuits b) as [| |[own|[| |] shows]]; run.

(** Whatever path [upload] took, the identifier it hands out is a key of
    the in-memory cache, bound to the artifact itself. *)
Lemma upload_caches stringify h A b r b' :
  upload stringify h A b = (Returned r, b') →
  cache b' !! upload_cid r = Some (Artifact A).
Proof.
  unfold upload, fetch, response_json, parse_item, store_item, assign,
    window_location_origin, cache_set.
  run.
  destruct (fetch_add h (stringify A)) as [[[] [hash|]]|]; run;
    try (intros [= <- <-]; cbn; apply lookup_insert_eq);
    case_host h b;
    intros [= <- <-] || discriminate; cbn; apply lookup_insert_eq.
Qed.

(** [upload] returns whenever the provider yields an identifier, and, in a
    browser ([window] exists), on the fallback path as well. *)
Lemma upload_returns stringify h A b :
  remote_failed h (stringify A) = false ∨ is_Some (window_origin h) →
  ∃ r b', upload stringify h A b = (Returned r, b').
Proof.
  unfold remote_failed, upload, fetch, response_json, parse_item, store_item, assign,
    window_location_origin, cache_set.
  run.
  destruct (fetch_add h (stringify A)) as [[[] [hash|]]|]; run; eauto;
    (intros [Hremote|[origin Ho]]; [by cbn in Hremote|]);
    rewrite Ho;
    destruct (localStorage_readable h), (localStorage_writable h);
    destruct (shared_circuits b) as [| |[own|[| |] shows]]; run; eauto.
Qed.

(** On the fallback path the identifier is the mock one. *)
Lemma upload_fallback_cid stringify h A b r b' :
  remote_failed h (stringify A) = true →
  upload stringify h A b = (Returned r, b') →
  upload_cid r = mockCid stringify A.
Proof.
  unfold remote_failed, upload, fetch, response_json, parse_item, store_item, assign,
    window_location_origin, cache_set.
  run.
  destruct (fetch_add h (stringify A)) as [[[] [hash|]]|]; run;
    try (cbn; discriminate); intros _;
    case_host h b; intros [= <- <-] || discriminate; reflexivity.
Qed.

(** *** download *)

Lemma download_cache_hit h c b (v : value) :
  cache b !! c = Some v → download h c b = (Returned v, b).
Proof.
  intros Hc. unfold download. run. by rewrite Hc.
Qed.



(** "first success wins": the winning gateway is the first one that
    answers, and the requests made are those up to it, in order. *)
Lemma first_gateway_some h c gateways evs data :
  first_gateway h c gateways = (evs, Some data) →
  ∃ i g, gateways !! i = Some g
    ∧ gateway_answer h c g = Some data
    ∧ (∀ j g', (j < i)%nat → gateways !! j = Some g' → gateway_answer h c g' = None)
    ∧ evs = (λ g, Fetch (g +:+ c)) <$> take (S i) gateways.
Proof.
  revert evs. induction gateways as [|g rest IH]; intros evs; cbn; [done|].
  destruct (gateway_answer h c g) as [data'|] eqn:Hg.
  - intros [= <- ->]. exists 0%nat, g.
    split; [done|]. split; [done|]. split; [|by rewrite take_0].
    intros j g' Hj. lia.
  - destruct (first_gateway h c rest) as [evs' found].
    intros [= <- ->].
    destruct (IH _ eq_refl) as (i & g0 & Hi & Hans & Hbefore & ->).
    exists (S i), g0. split; [done|]. split; [done|]. split; [|done].
    intros [|j] g' Hj Hg'; cbn in Hg'.
    + by injection Hg' as <-.
    + apply (Hbefore j); [lia|done].
Qed.

Example offline_upload_cid :
  upload_cid <$> (match fst (upload plain_stringify offline demo fresh) with
                  | Returned r => Some r | Thrown _ => None end)
  = Some "Qm0000000000000000000000000000000000006be49bc5".
Proof. vm_compute. reflexivity. Qed.

(** C1. For every artifact [A], [download] of the identifier that
    [upload A] returned gives back [A], whether or not the remote provider
    is reachable: every behaviour of [fetch_add] is covered, and so is every
    state of localStorage.  [upload] does return, as soon as the provider
    yields an identifier or there is a [window] to build the share URL
    from; and the [download] that follows answers from the in-memory cache
    alone: it leaves the state, and so the log of storage reads and gateway
    requests, as it found it, whatever the host [h'] it runs in. *)
Theorem upload_download_roundtrip stringify (h : host) (A : SharedCircuit)
    (b : browser) :
  remote_failed h (stringify A) = false ∨ is_Some (window_origin h) →
  ∃ r b', upload stringify h A b = (Returned r, b')
        ∧ ∀ h', download h' (upload_cid r) b' = (Returned (Artifact A), b').
Proof.
  intros Hcan.
  destruct (upload_returns stringify h A b Hcan) as (r & b' & Hup).
  exists r, b'. split; [done|].
  intros h'. apply download_cache_hit. by eapply upload_caches.
Qed.

Lemma upload_download_roundtrip_witness :
  (∃ r b', upload plain_stringify offline demo fresh = (Returned r, b')
         ∧ ∀ h', download h' (upload_cid r) b' = (Returned (Artifact demo), b'))
  ∧ (∃ r b', upload plain_stringify online demo warm = (Returned r, b')
           ∧ ∀ h', download h' (upload_cid r) b' = (Returned (Artifact demo), b')).
Proof.
  split.
  - apply (upload_download_roundtrip plain_stringify offline demo fresh).
    right. by eexists.
  - apply (upload_download_roundtrip plain_stringify online demo warm).
    left. reflexivity.
Defined.

(** An identifier nobody knows, with every gateway down: the local store is
    read once, then each gateway is asked once, in the order of
    [IPFS_GATEWAYS]. *)
Example download_unknown :
  download offline "QmX" fresh
  = (Thrown "Failed to fetch circuit from IPFS: QmX",
     logged [ GetItem SHARED_KEY;
              Fetch "https://ipfs.io/ipfs/QmX";
              Fetch "https://gateway.pinata.cloud/ipfs/QmX";
              Fetch "https://cloudflare-ipfs.com/ipfs/QmX";
              Fetch "https://dweb.link/ipfs/QmX" ] fresh).
Proof. reflexivity. Qed.

(** C7. The order cache, local store, gateways does not hold of
    [download] for an identifier that names a property every object
    inherits.  For the identifier ["constructor"], with an empty cache and
    nothing stored, the design document resolves through the gateways
    ([resolution] asks the first one and finds [demo]); the code takes the
    [constructor] that the parsed store inherits from [Object.prototype]
    for a local hit, caches it and returns it, having asked no gateway.
    The cache, a [Map], does not have this: its [get] finds only what was
    [set]. *)
Example download_inherited_property :
  resolution served fresh "constructor"
    = ([GetItem SHARED_KEY; Fetch "https://ipfs.io/ipfs/constructor"],
       Some (Artifact demo))
  ∧ download served "constructor" fresh
    = (Returned (Other "Object.prototype.constructor"),
       {| cache := {[ "constructor" := Other "Object.prototype.constructor" ]};
          shared_circuits := Absent;
          gallery := Absent;
          log := [GetItem SHARED_KEY] |}).
Proof. split; reflexivity. Qed.

(** C9. On the fallback path the identifier depends on the serialized
    artifact alone: two artifacts with the same JSON text get the same
    identifier, ["Qm"] followed by [generateMockHash] of that text,
    whatever the states of the cache and of localStorage and whichever way
    the provider failed. *)
Theorem fallback_cid_deterministic stringify (h1 h2 : host) (A B : SharedCircuit)
    (b1 b2 : browser) (o1 o2 : string) :
  stringify A = stringify B →
  remote_failed h1 (stringify A) = true →
  remote_failed h2 (stringify B) = true →
  window_origin h1 = Some o1 →
  window_origin h2 = Some o2 →
  ∃ r1 b1' r2 b2',
    upload stringify h1 A b1 = (Returned r1, b1')
    ∧ upload stringify h2 B b2 = (Returned r2, b2')
    ∧ upload_cid r1 = upload_cid r2
    ∧ upload_cid r1 = "Qm" +:+ generateMockHash (stringify A).
Proof.
  intros Hser Hf1 Hf2 Ho1 Ho2.
  destruct (upload_returns stringify h1 A b1) as (r1 & b1' & Hup1);
    [right; by eexists|].
  destruct (upload_returns stringify h2 B b2) as (r2 & b2' & Hup2);
    [right; by eexists|].
  exists r1, b1', r2, b2'. repeat split; [done|done| |].
  - rewrite (upload_fallback_cid _ _ _ _ _ _ Hf1 Hup1).
    rewrite (upload_fallback_cid _ _ _ _ _ _ Hf2 Hup2).
    unfold mockCid. by rewrite Hser.
  - by rewrite (upload_fallback_cid _ _ _ _ _ _ Hf1 Hup1).
Qed.

Lemma fallback_cid_deterministic_witness :
  ∃ r1 b1' r2 b2',
    upload plain_stringify offline demo fresh = (Returned r1, b1')
    ∧ upload plain_stringify no_storage demo warm = (Returned r2, b2')
    ∧ upload_cid r1 = upload_cid r2
    ∧ upload_cid r1 = "Qm" +:+ generateMockHash (plain_stringify demo).
Proof.
  apply (fallback_cid_deterministic plain_stringify offline no_storage demo demo
           fresh warm "http://localhost:3000" "https://zk.example");
    reflexivity.
Defined.

End IPFSFacts.

Module GalleryFacts.
Import GalleryService.

Lemma findIndex_from_lacks id circuits i :
  lacks id circuits → findIndex_from (has_cid id) circuits i = (-1)%Z.
Proof.
  intros Hl. revert i. induction Hl as [|c circuits Hc _ IH]; intros i; cbn; [done|].
  unfold has_cid at 1. by rewrite bool_decide_eq_false_2.
Qed.

Lemma findIndex_from_first id l1 c l2 i :
  lacks id l1 → cid (shared c) = id →
  findIndex_from (has_cid id) (l1 ++ c :: l2) i = (i + Z.of_nat (length l1))%Z.
Proof.
  intros Hl Hc. revert i. induction Hl as [|c' l1 Hc' _ IH]; intros i; cbn.
  - unfold has_cid. rewrite bool_decide_eq_true_2 by done. lia.
  - unfold has_cid at 1. rewrite bool_decide_eq_false_2 by done.
    rewrite IH. lia.
Qed.

Lemma find_lacks id circuits : lacks id circuits → find (has_cid id) circuits = None.
Proof.
  intros Hl. unfold find, findIndex. by rewrite findIndex_from_lacks.
Qed.

Lemma find_first id l1 c l2 :
  lacks id l1 → cid (shared c) = id →
  find (has_cid id) (l1 ++ c :: l2) = Some (length l1).
Proof.
  intros Hl Hc. unfold find, findIndex. rewrite findIndex_from_first by done.
  rewrite Z.add_0_l, Nat2Z.id.
  destruct (Z.ltb_spec (Z.of_nat (length l1)) 0); [lia|done].
Qed.

Lemma alter_first {A} (f : A → A) (l1 : list A) (c : A) (l2 : list A) :
  alter f (length l1) (l1 ++ c :: l2) = l1 ++ f c :: l2.
Proof.
  by rewrite alter_app_r_alt, Nat.sub_diag by lia.
Qed.

Lemma insert_first {A} (x : A) (l1 : list A) (c : A) (l2 : list A) :
  <[length l1 := x]> (l1 ++ c :: l2) = l1 ++ x :: l2.
Proof.
  by rewrite insert_app_r_alt, Nat.sub_diag by lia.
Qed.

Ltac unfold_gallery :=
  unfold getCircuits, addCircuit, incrementViews, incrementLikes, searchCircuits,
    parse_item, store_item; run.

(** C8. For an identifier absent from the gallery, in whatever state the
    persisted collection is, [incrementViews] and [incrementLikes] return
    and leave the state as it was but for the one read they log: nothing is
    written and no entry is created.  For an identifier that is present
    (and a storage that can be read and written), the first entry with that
    identifier has its [views] (resp. [likes]) raised by one, and every
    other entry, every other field and the rest of the state stay as they
    were. *)
Theorem increment_frame (h : host) (b : browser) (id : string) :
  (lacks id (entries b) →
     incrementViews h id b = (Returned tt, logged [GetItem STORAGE_KEY] b)
     ∧ incrementLikes h id b = (Returned tt, logged [GetItem STORAGE_KEY] b))
  ∧ (∀ l1 c l2,
       gallery b = Parsed (l1 ++ c :: l2) →
       lacks id l1 → cid (shared c) = id →
       localStorage_readable h = true → localStorage_writable h = true →
       incrementViews h id b
         = (Returned tt,
            set_gallery (Parsed (l1 ++ views_incr c :: l2))
              (logged [GetItem STORAGE_KEY; SetItem STORAGE_KEY] b))
       ∧ incrementLikes h id b
         = (Returned tt,
            set_gallery (Parsed (l1 ++ likes_incr c :: l2))
              (logged [GetItem STORAGE_KEY; SetItem STORAGE_KEY] b))).
Proof.
  split.
  - unfold entries, logged. intros Hl. unfold_gallery.
    destruct (localStorage_readable h); run; [|by split].
    destruct (gallery b) as [| |circuits]; run; [|by split|].
    all: rewrite (find_lacks _ _ Hl); by run.
  - intros l1 c l2 Hg Hl Hc Hr Hw. unfold_gallery.
    rewrite Hr, Hw. run. rewrite Hg. run.
    rewrite (find_first _ _ _ _ Hl Hc). run.
    rewrite !alter_first. unfold set_gallery, logged. cbn.
    by rewrite <- !app_assoc.
Qed.

Lemma increment_frame_witness :
  (incrementViews here "Qm9" shelf = (Returned tt, logged [GetItem STORAGE_KEY] shelf)
   ∧ incrementLikes here "Qm9" shelf = (Returned tt, logged [GetItem STORAGE_KEY] shelf))
  ∧ (incrementViews here "Qm2" shelf
       = (Returned tt,
          set_gallery
            (Parsed ([ {| shared := age_check; views := 5; likes := 2 |} ]
                     ++ views_incr {| shared := merkle; views := 1; likes := 1 |} :: []))
            (logged [GetItem STORAGE_KEY; SetItem STORAGE_KEY] shelf))
     ∧ incrementLikes here "Qm2" shelf
       = (Returned tt,
          set_gallery
            (Parsed ([ {| shared := age_check; views := 5; likes := 2 |} ]
                     ++ likes_incr {| shared := merkle; views := 1; likes := 1 |} :: []))
            (logged [GetItem STORAGE_KEY; SetItem STORAGE_KEY] shelf))).
Proof.
  split.
  - apply (proj1 (increment_frame here shelf "Qm9")).
    repeat constructor; discriminate.
  - apply (proj2 (increment_frame here shelf "Qm2")
             [ {| shared := age_check; views := 5; likes := 2 |} ]
             {| shared := merkle; views := 1; likes := 1 |} []);
      try reflexivity.
    repeat constructor; discriminate.
Defined.

(** C2, as stated, fails: adding [age_check_v2] over the entry ["Qm1"],
    which has 5 views and 2 likes, leaves an entry with no views and no
    likes. *)
Lemma addCircuit_resets_counters :
  ¬ upsert_preserves_counters here shelf age_check_v2.
Proof.
  intros Hkeep.
  destruct (Hkeep {| shared := age_check; views := 5; likes := 2 |})
    as (e' & Hin & _ & Hviews & _).
  - cbn. left.
  - reflexivity.
  - vm_compute in Hin.
    apply list_elem_of_In in Hin. destruct Hin as [<-|[<-|[]]]; discriminate.
Qed.

(** C2, amended. With a storage that can be read and written, adding an
    artifact [A] whose identifier is already in the gallery replaces the
    first entry that has it by [A]'s fields with [views = 0] and
    [likes = 0] (the counters start afresh), in place, and touches no
    other entry; adding one whose identifier is new puts that fresh entry
    at the front.  Either way the collection written back is cut to its
    first 100 entries, and the fresh entry is returned. *)
Theorem addCircuit_upsert (h : host) (b : browser) (A : SharedCircuit) :
  localStorage_readable h = true →
  localStorage_writable h = true →
  gallery b ≠ Garbled →
  let galleryCircuit := {| shared := A; views := 0; likes := 0 |} in
  ∃ trimmed,
    addCircuit h A b
      = (Returned galleryCircuit,
         set_gallery (Parsed trimmed)
           (logged [GetItem STORAGE_KEY; SetItem STORAGE_KEY] b))
    ∧ length trimmed ≤ 100
    ∧ (lacks (cid A) (entries b) → trimmed = take 100 (galleryCircuit :: entries b))
    ∧ (∀ l1 e l2,
         entries b = l1 ++ e :: l2 → lacks (cid A) l1 → cid (shared e) = cid A →
         trimmed = take 100 (l1 ++ galleryCircuit :: l2)).
Proof.
  intros Hr Hw Hg galleryCircuit.
  assert (∃ trimmed,
    trimmed = take 100
      (let existing := findIndex (has_cid (cid A)) (entries b) in
       if (0 <=? existing)%Z then <[Z.to_nat existing := galleryCircuit]> (entries b)
       else galleryCircuit :: entries b)
    ∧ addCircuit h A b
      = (Returned galleryCircuit,
         set_gallery (Parsed trimmed)
           (logged [GetItem STORAGE_KEY; SetItem STORAGE_KEY] b)))
    as (trimmed & Htrim & Hrun).
  { eexists. split; [reflexivity|].
    unfold entries, logged, set_gallery. unfold_gallery. rewrite Hr, Hw. run.
    destruct (gallery b) as [| |circuits]; [|done|]; run;
      by rewrite <- app_assoc. }
  exists trimmed. split; [done|]. split; [|split].
  - rewrite Htrim, length_take. lia.
  - intros Hl. rewrite Htrim. cbv zeta. unfold findIndex.
    by rewrite findIndex_from_lacks.
  - intros l1 e l2 Hsplit Hl He. rewrite Htrim, Hsplit. cbv zeta. unfold findIndex.
    rewrite findIndex_from_first by done. rewrite Z.add_0_l, Nat2Z.id.
    destruct (Z.leb_spec 0 (Z.of_nat (length l1))); [|lia].
    by rewrite insert_first.
Qed.

Lemma addCircuit_upsert_witness :
  ∃ trimmed,
    addCircuit here age_check_v2 shelf
      = (Returned {| shared := age_check_v2; views := 0; likes := 0 |},
         set_gallery (Parsed trimmed)
           (logged [GetItem STORAGE_KEY; SetItem STORAGE_KEY] shelf))
    ∧ length trimmed ≤ 100
    ∧ (lacks (cid age_check_v2) (entries shelf) →
       trimmed = take 100 ({| shared := age_check_v2; views := 0; likes := 0 |}
                           :: entries shelf))
    ∧ (∀ l1 e l2,
         entries shelf = l1 ++ e :: l2 → lacks (cid age_check_v2) l1 →
         cid (shared e) = cid age_check_v2 →
         trimmed = take 100 (l1 ++ {| shared := age_check_v2; views := 0; likes := 0 |} :: l2)).
Proof.
  apply (addCircuit_upsert here shelf age_check_v2);
    [reflexivity | reflexivity | discriminate].
Defined.

(** C10. No operation of [GalleryService] raises to its caller, in any
    state of the storage, and [addCircuit] always returns the entry it
    built, with [views = 0] and [likes = 0].  When the persisted collection
    is missing, unreadable or unparseable, [getCircuits] and
    [searchCircuits] return the empty list and the two increments return
    normally. *)
Theorem gallery_total (h : host) (b : browser) (f : filter) (limit : Z)
    (query id : string) (A : SharedCircuit) :
  (returned (fst (getCircuits h f limit b)) = true
   ∧ returned (fst (searchCircuits h query b)) = true
   ∧ fst (addCircuit h A b) = Returned {| shared := A; views := 0; likes := 0 |}
   ∧ fst (incrementViews h id b) = Returned tt
   ∧ fst (incrementLikes h id b) = Returned tt)
  ∧ (degraded h b →
     fst (getCircuits h f limit b) = Returned []
     ∧ fst (searchCircuits h query b) = Returned []).
Proof.
  split.
  - unfold_gallery.
    destruct (localStorage_readable h), (localStorage_writable h); run;
      try (repeat split; reflexivity);
      destruct (gallery b) as [| |circuits]; run;
      try (repeat split; reflexivity).
    all: destruct (find (has_cid id) circuits); run; repeat split; reflexivity.
  - intros [Hg|[Hr|Hg]]; unfold_gallery.
    + rewrite Hg. destruct (localStorage_readable h); run; [|done].
      split; [|done]. unfold slice_to. destruct f; cbn; by destruct (limit <? 0)%Z; rewrite take_nil.
    + rewrite Hr. by run.
    + rewrite Hg. destruct (localStorage_readable h); by run.
Qed.

Lemma gallery_total_witness :
  (fst (getCircuits here popular 20 corrupt) = Returned []
   ∧ fst (searchCircuits here "age" corrupt) = Returned [])
  ∧ (fst (getCircuits locked recent 20 shelf) = Returned []
     ∧ fst (searchCircuits locked "age" shelf) = Returned [])
  ∧ (fst (getCircuits here all (-3) IPFSService.fresh) = Returned []
     ∧ fst (searchCircuits here "" IPFSService.fresh) = Returned []).
Proof.
  split; [|split].
  - apply (proj2 (gallery_total here corrupt popular 20 "age" "Qm1" age_check)).
    right. right. reflexivity.
  - apply (proj2 (gallery_total locked shelf recent 20 "age" "Qm1" age_check)).
    right. left. reflexivity.
  - apply (proj2 (gallery_total here IPFSService.fresh all (-3) "" "Qm1" age_check)).
    left. reflexivity.
Defined.

End GalleryFacts.

Module SunspotFacts.
Import SunspotService.

Ltac unfold_calls :=
  unfold deployVerifier, verifyProofOnChain, report, recorder, await, observe; run.

Lemma deployVerifier_success connection net config wallet sign r t :
  deployVerifier connection net config wallet sign (Some recorder) [] = (Returned r, t) →
  let size := (Z.of_nat (length (verificationKey config)) + 64)%Z in
  ∃ lamports blockhash height signed signature result,
    let unsigned :=
      deployment_transaction size lamports (generate connection) wallet blockhash in
    minimumBalanceForRentExemption connection size = Returned lamports
    ∧ latestBlockhash connection = Returned (blockhash, height)
    ∧ sign unsigned = Returned signed
    ∧ sendRaw connection signed = Returned signature
    ∧ confirm connection signature blockhash height = Returned result
    ∧ t = deployment_trace size unsigned signed signature
    ∧ r = {| programId := generate connection;
             transactionSignature := signature;
             deployed_network := net;
             cost := (lamports, LAMPORTS_PER_SOL) |}.
Proof.
  unfold_calls. cbn.
  destruct (minimumBalanceForRentExemption connection _) as [lamports|] eqn:Hrent;
    cbn; [|discriminate].
  destruct (latestBlockhash connection) as [[blockhash height]|] eqn:Hhash;
    cbn; [|discriminate].
  unfold partialSign. cbn [recentBlockhash].
  destruct (bs58_decode_length blockhash) as [n|]; cbn; [|discriminate].
  destruct (n =? 32)%nat; cbn; [|discriminate].
  destruct (sign _) as [signed|] eqn:Hsign; cbn; [|discriminate].
  destruct (sendRaw connection signed) as [signature|] eqn:Hsend; cbn; [|discriminate].
  destruct (confirm connection signature blockhash height) as [result|] eqn:Hconfirm;
    cbn; [|discriminate].
  intros [= <- <-].
  by exists lamports, blockhash, height, signed, signature, result.
Qed.

Lemma verifyProofOnChain_success connection net config wallet sign r t :
  verifyProofOnChain connection net config wallet sign (Some recorder) [] = (Returned r, t) →
  ∃ unsigned signed signature blockhash height result,
    confirm connection signature blockhash height = Returned result
    ∧ t = verification_trace unsigned signed signature
    ∧ r = {| isValid := true;
             verification_signature := signature;
             verified_network := net;
             verified_at := Date_now connection |}.
Proof.
  unfold_calls. cbn.
  destruct (PublicKey_new connection _) as [verifier|]; cbn; [|discriminate].
  destruct (latestBlockhash connection) as [[blockhash height]|]; cbn; [|discriminate].
  destruct (sign _) as [signed|] eqn:Hsign; cbn; [|discriminate].
  destruct (sendRaw connection signed) as [signature|]; cbn; [|discriminate].
  destruct (confirm connection signature blockhash height) as [result|] eqn:Hconfirm;
    cbn; [|discriminate].
  intros [= <- <-].
  by eexists _, signed, signature, blockhash, height, result.
Qed.

(** C4. In a successful call of [deployVerifier] or of
    [verifyProofOnChain], the progress values handed to the callback never
    decrease, and 100 comes exactly once, as the last of them. *)
Theorem progress_well_reported connection net wallet sign :
  (∀ config r t,
     deployVerifier connection net config wallet sign (Some recorder) [] = (Returned r, t) →
     well_reported (progress_values t))
  ∧ (∀ config r t,
       verifyProofOnChain connection net config wallet sign (Some recorder) []
         = (Returned r, t) →
       well_reported (progress_values t)).
Proof.
  split; intros config r t Hrun.
  - destruct (deployVerifier_success _ _ _ _ _ _ _ Hrun)
      as (? & ? & ? & ? & ? & ? & _ & _ & _ & _ & _ & -> & _).
    split; [|split]; [|reflexivity|reflexivity].
    cbn. repeat constructor; lia.
  - destruct (verifyProofOnChain_success _ _ _ _ _ _ _ Hrun)
      as (? & ? & ? & ? & ? & ? & _ & -> & _).
    split; [|split]; [|reflexivity|reflexivity].
    cbn. repeat constructor; lia.
Qed.

Lemma progress_well_reported_witness :
  well_reported
    (progress_values (snd (deployVerifier ledger devnet key3 wallet_key wallet_signs
                             (Some recorder) [])))
  ∧ well_reported
      (progress_values (snd (verifyProofOnChain ledger devnet proof2 wallet_key wallet_signs
                               (Some recorder) []))).
Proof.
  split.
  - eapply (proj1 (progress_well_reported ledger devnet wallet_key wallet_signs) key3),
      returned_run.
    vm_compute. reflexivity.
  - eapply (proj2 (progress_well_reported ledger devnet wallet_key wallet_signs) proof2),
      returned_run.
    vm_compute. reflexivity.
Defined.




(** C6. When the signing function rejects the transaction that
    [deployVerifier] hands it, the call fails: it returns no deployment
    record, reports no progress above 50 (so nothing for Submitted or
    Confirmed) and neither submits nor confirms anything.  The error is the
    signer's own, unless an earlier request had already failed and the
    signer was never asked.  Nothing is assumed of what the signer would do
    with any other transaction. *)
Theorem signer_rejection connection net config wallet sign (e : string) :
  (∀ lamports blockhash height,
     minimumBalanceForRentExemption connection
       (Z.of_nat (length (verificationKey config)) + 64) = Returned lamports →
     latestBlockhash connection = Returned (blockhash, height) →
     sign (deployment_transaction (Z.of_nat (length (verificationKey config)) + 64)
             lamports (generate connection) wallet blockhash) = Thrown e) →
  ∃ e' t,
    deployVerifier connection net config wallet sign (Some recorder) [] = (Thrown e', t)
    ∧ Forall before_submission t
    ∧ ((e' = e ∧ signer_called t) ∨ ¬ signer_called t).
Proof.
  intros Hsign. unfold_calls. cbn.
  destruct (minimumBalanceForRentExemption connection _) as [lamports|e1] eqn:Hrent; cbn.
  2: { exists e1. eexists. split; [reflexivity|]. split.
       - repeat constructor; cbn; lia.
       - right. intros [tx Hin]. apply list_elem_of_In in Hin. cbn in Hin.
         intuition discriminate. }
  destruct (latestBlockhash connection) as [[blockhash height]|e2] eqn:Hhash; cbn.
  2: { exists e2. eexists. split; [reflexivity|]. split.
       - repeat constructor; cbn; lia.
       - right. intros [tx Hin]. apply list_elem_of_In in Hin. cbn in Hin.
         intuition discriminate. }
  specialize (Hsign lamports blockhash height eq_refl eq_refl).
  unfold deployment_transaction in Hsign. unfold partialSign. cbn [recentBlockhash].
  assert (∀ e3,
    ∃ e' t,
      (Thrown e3 : outcome SunspotDeploymentResult,
       [ Progress 10 "Preparing deployment..."; Called Keypair_generate;
         Progress 20 "Calculating deployment cost...";
         Called (getMinimumBalanceForRentExemption
                   (Z.of_nat (length (verificationKey config)) + 64));
         Progress 30 "Creating verifier account...";
         Progress 40 "Building transaction..."; Called getLatestBlockhash;
         Progress 50 "Signing transaction..." ]) = (Thrown e', t)
      ∧ Forall before_submission t
      ∧ ((e' = e ∧ signer_called t) ∨ ¬ signer_called t)) as Hunsigned.
  { intros e3. exists e3. eexists. split; [reflexivity|]. split.
    - repeat constructor; cbn; lia.
    - right. intros [tx Hin]. apply list_elem_of_In in Hin. cbn in Hin.
      intuition discriminate. }
  destruct (bs58_decode_length blockhash) as [n|e3]; cbn; [|apply Hunsigned].
  destruct (n =? 32)%nat; cbn; [|apply Hunsigned].
  unfold signed_by. cbn. rewrite Hsign. cbn.
  exists e. eexists. split; [reflexivity|]. split.
  - repeat constructor; cbn; lia.
  - left. split; [done|]. eexists. apply list_elem_of_In. cbn. do 8 right. by left.
Qed.

Lemma signer_rejection_witness :
  ∃ e' t,
    deployVerifier ledger devnet key3 wallet_key wallet_declines_accounts (Some recorder) []
      = (Thrown e', t)
    ∧ Forall before_submission t
    ∧ ((e' = "User rejected the request" ∧ signer_called t) ∨ ¬ signer_called t).
Proof.
  apply (signer_rejection ledger devnet key3 wallet_key wallet_declines_accounts
           "User rejected the request").
  intros lamports blockhash height _ _. reflexivity.
Defined.

(** Whatever the ledger answers at confirmation, the verdict is [true]. *)
Lemma verifyProofOnChain_verdict connection net config wallet sign onProgress r t t0 :
  verifyProofOnChain connection net config wallet sign onProgress t0 = (Returned r, t) →
  isValid r = true.
Proof.
  unfold verifyProofOnChain, report, await, observe. run. intros Hrun.
  repeat match type of Hrun with
         | context [match ?x with _ => _ end] => destruct x; try discriminate Hrun
         end.
  all: by injection Hrun as <- _.
Qed.

(** C3. The verifier's address is a public key, the call goes all the
    way to the confirmation, and the transaction that the ledger confirms
    failed on chain ([err] is set); [verifyProofOnChain] reports it as
    valid: the outcome of the confirmation is not looked at. *)
Example failed_transaction_reported_valid :
  PublicKey_new ledger (verifier_programId proof2) = Returned program_key
  ∧ confirm ledger signature1 recent_blockhash 1000
    = Returned {| err := Some "InstructionError" |}
  ∧ (∃ unsigned signed,
       snd (verifyProofOnChain ledger devnet proof2 wallet_key wallet_signs
              (Some recorder) [])
       = verification_trace unsigned signed signature1)
  ∧ fst (verifyProofOnChain ledger devnet proof2 wallet_key wallet_signs (Some recorder) [])
    = Returned {| isValid := true;
                  verification_signature := signature1;
                  verified_network := devnet;
                  verified_at := 1700000000000 |}.
Proof.
  split; [vm_compute; reflexivity|]. split; [reflexivity|].
  split; [eexists _, _|]; vm_compute; reflexivity.
Qed.

End SunspotFacts.


(** * Further properties of the services *)


Module IPFSMore.
Import IPFSService IPFSFacts.

Lemma ToInt32_mod z : (ToInt32 z `mod` 2 ^ 32 = z `mod` 2 ^ 32)%Z.
Proof.
  unfold ToInt32. rewrite Zminus_mod_idemp_l. f_equal. lia.
Qed.

Lemma ToInt32_congr x y :
  (x `mod` 2 ^ 32 = y `mod` 2 ^ 32)%Z → ToInt32 x = ToInt32 y.
Proof.
  intros Hxy. unfold ToInt32. f_equal.
  rewrite <- (Zplus_mod_idemp_l x), <- (Zplus_mod_idemp_l y). by rewrite Hxy.
Qed.

Lemma hash_step_twice h a b :
  hash_step (hash_step h a) b = ToInt32 (961 * h + 31 * a + b).
Proof.
  rewrite !hash_step_31. apply ToInt32_congr.
  transitivity ((31 * (31 * h + a) + b) `mod` 2 ^ 32)%Z; [|f_equal; lia].
  rewrite <- (Zplus_mod_idemp_l (31 * ToInt32 (31 * h + a))).
  rewrite <- (Zmult_mod_idemp_r (ToInt32 (31 * h + a))), ToInt32_mod.
  by rewrite Zmult_mod_idemp_r, Zplus_mod_idemp_l.
Qed.

(** X1. [generateMockHash] is not injective: moving one unit of weight 31
    from a code unit to the one before it ([a, b] to [a + 1, b - 31], as
    from ["Aa"] to ["BB"]) anywhere in the text leaves the hash, and so the
    mock identifier, as it was. *)
Theorem generateMockHash_collision (before after : list Z) (a b : Z) :
  generateMockHash (before ++ [a; b] ++ after)
  = generateMockHash (before ++ [(a + 1)%Z; (b - 31)%Z] ++ after).
Proof.
  unfold generateMockHash, hash_loop.
  rewrite !fold_left_app. cbn [fold_left].
  rewrite !hash_step_twice.
  by replace (961 * fold_left hash_step before 0 + 31 * (a + 1) + (b - 31))%Z
    with (961 * fold_left hash_step before 0 + 31 * a + b)%Z by lia.
Qed.

Lemma length_append (s1 s2 : string) :
  String.length (s1 +:+ s2) = String.length s1 + String.length s2.
Proof. induction s1 as [|a s1 IH]; simpl; [done|]. by rewrite IH. Qed.

Lemma length_repeat_zero n : String.length (repeat_string n "0") = n.
Proof. induction n as [|n IH]; simpl; [done|]. f_equal. exact IH. Qed.

Lemma substring_all n s : String.length s ≤ n → String.substring 0 n s = s.
Proof.
  revert n. induction s as [|a s IH]; intros [|n] Hn; simpl in *; try done; [lia|].
  f_equal. apply IH. lia.
Qed.

Lemma hex_digit_cons d acc :
  (0 ≤ d < 16)%Z →
  ∃ a, hex_digit d +:+ acc = String a acc ∧ hex_digit_value a = Some d.
Proof.
  intros Hd.
  assert (d ∈ (Z.of_nat <$> seq 0 16)) as Hin.
  { apply list_elem_of_fmap. exists (Z.to_nat d). split; [lia|].
    apply list_elem_of_In, in_seq. lia. }
  cbn in Hin. apply list_elem_of_In in Hin. cbn in Hin.
  repeat (destruct Hin as [<-|Hin]; [eexists; split; reflexivity|]).
  done.
Qed.

Lemma parse_hex_go fuel n acc :
  (0 ≤ n < 16 ^ Z.of_nat fuel)%Z →
  parse_hex_from 0 (hex_go fuel n acc) = parse_hex_from n acc.
Proof.
  revert n acc. induction fuel as [|fuel IH]; intros n acc Hn.
  - cbn in *. by replace n with 0%Z by lia.
  - cbn [hex_go].
    destruct (hex_digit_cons (n `mod` 16) acc) as (a & -> & Ha).
    { apply Z.mod_pos_bound. lia. }
    rewrite Nat2Z.inj_succ, Z.pow_succ_r in Hn by lia.
    destruct (Z.eqb_spec (n `div` 16) 0) as [Hq|Hq].
    + cbn. rewrite Ha. f_equal. rewrite (Z.div_mod n 16) at 2 by lia. lia.
    + rewrite IH.
      * cbn. rewrite Ha. f_equal. rewrite (Z.div_mod n 16) at 3 by lia. lia.
      * split; [apply Z.div_pos; lia|]. apply Z.div_lt_upper_bound; lia.
Qed.

Lemma length_hex_go fuel n acc k :
  (0 ≤ n < 16 ^ Z.of_nat k)%Z → 1 ≤ k →
  String.length (hex_go fuel n acc) ≤ k + String.length acc.
Proof.
  revert n acc k. induction fuel as [|fuel IH]; intros n acc k Hn Hk; cbn [hex_go].
  - lia.
  - destruct (hex_digit_cons (n `mod` 16) acc) as (a & -> & _).
    { apply Z.mod_pos_bound. lia. }
    destruct (Z.eqb_spec (n `div` 16) 0) as [Hq|Hq]; [cbn; lia|].
    destruct k as [|[|k]]; [lia| |].
    + exfalso. apply Hq, Z.div_small. cbn in Hn. lia.
    + eapply Nat.le_trans; [apply (IH _ _ (S k))|cbn; lia]; [|lia].
      rewrite Nat2Z.inj_succ, Z.pow_succ_r in Hn by lia.
      split; [apply Z.div_pos; lia|]. apply Z.div_lt_upper_bound; lia.
Qed.

Lemma parse_hex_toString16 n : (0 ≤ n)%Z → parse_hex (toString16 n) = Some n.
Proof.
  intros Hn. unfold parse_hex, toString16. rewrite parse_hex_go; [done|].
  split; [done|].
  destruct (Z.eq_dec n 0%Z) as [->|Hn0]; [done|].
  rewrite Nat2Z.inj_succ, Z2Nat.id by apply Z.log2_nonneg.
  pose proof (Z.log2_spec n ltac:(lia)) as [_ Hlog].
  eapply Z.lt_le_trans; [exact Hlog|].
  apply Z.pow_le_mono_l. lia.
Qed.

Lemma parse_hex_zeros k s :
  parse_hex_from 0 (repeat_string k "0" +:+ s) = parse_hex_from 0 s.
Proof. induction k as [|k IH]; simpl; [done|]. exact IH. Qed.

(** X2. The mock hash is always 44 characters long, and read as a
    hexadecimal numeral it is the absolute value of the 32-bit hash of the
    text, a number between 0 and 2^31: at most the last eight of its 44
    characters carry information. *)
Theorem generateMockHash_encodes (content : list Z) :
  String.length (generateMockHash content) = 44
  ∧ parse_hex (generateMockHash content) = Some (Z.abs (hash_loop content))
  ∧ (0 ≤ Z.abs (hash_loop content) ≤ 2 ^ 31)%Z.
Proof.
  pose proof (hash_loop_range content) as Hrange.
  set (n := Z.abs (hash_loop content)).
  assert (0 ≤ n ≤ 2 ^ 31)%Z as Hn by (unfold n; lia).
  assert (String.length (toString16 n) ≤ 8) as Hlen.
  { unfold toString16.
    pose proof (length_hex_go (S (Z.to_nat (Z.log2 n))) n "" 8) as Hgo.
    cbn [String.length] in Hgo. rewrite Nat.add_0_r in Hgo. apply Hgo; [|lia].
    change (16 ^ Z.of_nat 8)%Z with (2 ^ 32)%Z. lia. }
  assert (String.length (padStart0 44 (toString16 n)) = 44) as Hpad.
  { unfold padStart0. rewrite length_append, length_repeat_zero. lia. }
  unfold generateMockHash, slice0. fold n.
  rewrite substring_all by lia.
  split; [done|]. split; [|done].
  unfold padStart0, parse_hex. rewrite parse_hex_zeros.
  apply parse_hex_toString16. lia.
Qed.

Ltac unfold_upload :=
  unfold remote_failed, upload, fetch, response_json, parse_item, store_item,
    assign, window_location_origin, cache_set, mockCid in *;
  run.

(** A mock identifier names nothing an object inherits. *)
Lemma mockCid_not_inherited stringify A : mockCid stringify A ∉ Object_prototype.
Proof.
  unfold mockCid, Object_prototype. intros Hin.
  apply list_elem_of_In in Hin. simpl in Hin.
  repeat (destruct Hin as [Hin|Hin]; [discriminate Hin|]). done.
Qed.

Ltac answered := cbn [ok json negb orb] in *; run.

(** X3. A later fallback upload whose text hashes like an earlier one
    takes over its identifier: both uploads return the same identifier,
    and [download] of it then gives the later artifact, not the earlier
    one. *)
Theorem colliding_upload_overwrites stringify (h1 h2 : host) (A B : SharedCircuit)
    (b : browser) :
  generateMockHash (stringify A) = generateMockHash (stringify B) →
  remote_failed h1 (stringify A) = true →
  remote_failed h2 (stringify B) = true →
  is_Some (window_origin h1) →
  is_Some (window_origin h2) →
  ∃ rA b1 rB b2,
    upload stringify h1 A b = (Returned rA, b1)
    ∧ upload stringify h2 B b1 = (Returned rB, b2)
    ∧ upload_cid rA = upload_cid rB
    ∧ ∀ h', download h' (upload_cid rA) b2 = (Returned (Artifact B), b2).
Proof.
  intros Hhash Hf1 Hf2 Hw1 Hw2.
  destruct (upload_returns stringify h1 A b) as (rA & b1 & HupA); [by right|].
  destruct (upload_returns stringify h2 B b1) as (rB & b2 & HupB); [by right|].
  exists rA, b1, rB, b2. split; [done|]. split; [done|].
  assert (upload_cid rA = upload_cid rB) as Hcid.
  { rewrite (upload_fallback_cid _ _ _ _ _ _ Hf1 HupA).
    rewrite (upload_fallback_cid _ _ _ _ _ _ Hf2 HupB).
    unfold mockCid. by rewrite Hhash. }
  split; [done|]. intros h'. apply download_cache_hit.
  rewrite Hcid. by eapply upload_caches.
Qed.

Lemma colliding_upload_overwrites_witness :
  ∃ rA b1 rB b2,
    upload plain_stringify offline (titled "Aa") fresh = (Returned rA, b1)
    ∧ upload plain_stringify no_storage (titled "BB") b1 = (Returned rB, b2)
    ∧ upload_cid rA = upload_cid rB
    ∧ ∀ h', download h' (upload_cid rA) b2 = (Returned (Artifact (titled "BB")), b2).
Proof.
  apply (colliding_upload_overwrites plain_stringify offline no_storage
           (titled "Aa") (titled "BB") fresh);
    [vm_compute; reflexivity | reflexivity | reflexivity | by eexists | by eexists].
Defined.

Lemma upload_fallback_persists stringify h A b origin :
  remote_failed h (stringify A) = true →
  window_origin h = Some origin →
  localStorage_readable h = true →
  localStorage_writable h = true →
  holds_object b →
  ∃ circuits,
    property circuits (mockCid stringify A) = Some (Artifact A)
    ∧ upload stringify h A b
      = (Returned {| upload_cid := mockCid stringify A;
                     upload_url := origin +:+ "/share/" +:+ mockCid stringify A |},
         {| cache := <[mockCid stringify A := Artifact A]> (cache b);
            shared_circuits := Parsed circuits;
            gallery := gallery b;
            log := log b ++ [Fetch (INFURA_IPFS_API +:+ "/add");
                             GetItem SHARED_KEY; SetItem SHARED_KEY] |}).
Proof.
  intros Hf Ho Hr Hw Hobject. unfold holds_object in Hobject.
  unfold_upload. rewrite Ho, Hr, Hw.
  destruct (fetch_add h (stringify A)) as [[[] [hash|]]|]; answered;
    try (cbn in Hf; discriminate);
    destruct (shared_circuits b) as [| |[own|[| |] shows]]; try done; run;
    eexists; (split; [|rewrite <- ?app_assoc; reflexivity]);
    unfold property; rewrite ?lookup_insert_eq, ?String.eqb_refl; reflexivity.
Qed.

(** X4. A fallback upload that could use localStorage, where the item of
    the shared circuits was missing or held an object, outlives the cache:
    after [clearCache], [download] of its identifier still returns the
    artifact, from the local store, having read localStorage once and asked
    no gateway, and puts it back in the cache. *)
Theorem fallback_upload_survives_clearCache stringify (h : host) (A : SharedCircuit)
    (b : browser) (origin : string) :
  remote_failed h (stringify A) = true →
  window_origin h = Some origin →
  localStorage_readable h = true →
  localStorage_writable h = true →
  holds_object b →
  ∃ r b1,
    upload stringify h A b = (Returned r, b1)
    ∧ ∀ h', localStorage_readable h' = true →
        ∃ b2, (clearCache;; download h' (upload_cid r)) b1 = (Returned (Artifact A), b2)
            ∧ log b2 = log b1 ++ [GetItem SHARED_KEY]
            ∧ cache b2 = {[ upload_cid r := Artifact A ]}.
Proof.
  intros Hf Ho Hr Hw Hobject.
  destruct (upload_fallback_persists stringify h A b origin Hf Ho Hr Hw Hobject)
    as (circuits & Hproperty & Hup).
  eexists _, _. split; [exact Hup|].
  intros h' Hr'. cbn [upload_cid].
  unfold clearCache, download, parse_item, cache_set. run.
  rewrite lookup_empty. run. rewrite Hr'. run.
  rewrite Hproperty. run.
  eexists. split; [reflexivity|]. split; [done|]. cbn.
  by rewrite insert_empty.
Qed.

Lemma fallback_upload_survives_clearCache_witness :
  ∃ r b1,
    upload plain_stringify offline demo fresh = (Returned r, b1)
    ∧ ∀ h', localStorage_readable h' = true →
        ∃ b2, (clearCache;; download h' (upload_cid r)) b1 = (Returned (Artifact demo), b2)
            ∧ log b2 = log b1 ++ [GetItem SHARED_KEY]
            ∧ cache b2 = {[ upload_cid r := Artifact demo ]}.
Proof.
  apply (fallback_upload_survives_clearCache plain_stringify offline demo fresh
           "http://localhost:3000");
    [reflexivity | reflexivity | reflexivity | reflexivity | exact I].
Defined.

(** Where the item holds an array, the fallback upload reads it, sets a
    property that the text written back does not keep, and the artifact is
    gone with the cache. *)
Example fallback_upload_on_stored_array :
  snd (upload plain_stringify offline demo stored_array)
  = {| cache := {[ mockCid plain_stringify demo := Artifact demo ]};
       shared_circuits := shared_circuits stored_array;
       gallery := Absent;
       log := [ Fetch (INFURA_IPFS_API +:+ "/add");
                GetItem SHARED_KEY; SetItem SHARED_KEY ] |}
  ∧ fst ((upload plain_stringify offline demo;;
          clearCache;;
          download offline (mockCid plain_stringify demo)) stored_array)
    = Thrown ("Failed to fetch circuit from IPFS: " +:+ mockCid plain_stringify demo).
Proof. split; vm_compute; reflexivity. Qed.

(** X5. A fallback upload that could not use localStorage (it cannot be
    read, or not written, or the item is not JSON) still succeeds, but
    leaves the local store as it was: the artifact lives in the cache only.
    After [clearCache], with the gateways unreachable and the identifier
    not in the old store, [download] of the identifier just handed out
    fails. *)
Theorem fallback_upload_without_storage_is_cache_only stringify (h : host)
    (A : SharedCircuit) (b : browser) :
  remote_failed h (stringify A) = true →
  is_Some (window_origin h) →
  localStorage_readable h = false ∨ localStorage_writable h = false
    ∨ shared_circuits b = Garbled →
  ∃ r b1,
    upload stringify h A b = (Returned r, b1)
    ∧ shared_circuits b1 = shared_circuits b
    ∧ ∀ h', local_hit h' b (upload_cid r) = None →
        (∀ url, fetch_get h' url = None) →
        fst ((clearCache;; download h' (upload_cid r)) b1)
        = Thrown ("Failed to fetch circuit from IPFS: " +:+ upload_cid r).
Proof.
  intros Hf [origin Ho] Hbad.
  assert (∃ evs,
    upload stringify h A b
    = (Returned {| upload_cid := mockCid stringify A;
                   upload_url := origin +:+ "/share/" +:+ mockCid stringify A |},
       {| cache := <[mockCid stringify A := Artifact A]> (cache b);
          shared_circuits := shared_circuits b;
          gallery := gallery b;
          log := log b ++ evs |})) as [evs Hup].
  { unfold_upload. rewrite Ho.
    destruct (fetch_add h (stringify A)) as [[[] [hash|]]|]; answered;
      try (cbn in Hf; discriminate);
      destruct Hbad as [Hr|[Hw|Hg]];
      rewrite ?Hr, ?Hw, ?Hg; run;
      destruct (localStorage_readable h); run;
      destruct (shared_circuits b) as [| |[own|[| |] shows]]; run;
      try discriminate;
      destruct (localStorage_writable h); run;
      try discriminate;
      eexists; rewrite <- ?app_assoc; reflexivity. }
  eexists _, _. split; [exact Hup|]. split; [done|].
  intros h' Hlocal Hdown. cbn [upload_cid] in *.
  unfold clearCache, download, parse_item, cache_set, local_hit, property in *. run.
  rewrite lookup_empty. run.
  rewrite (bool_decide_eq_false_2 _ (mockCid_not_inherited stringify A)).
  assert (∀ b0, fst (download_from h' (mockCid stringify A) IPFS_GATEWAYS b0)
                = Thrown ("Failed to fetch circuit from IPFS: " +:+ mockCid stringify A))
    as Hgw.
  { intros b0. unfold IPFS_GATEWAYS. cbn [download_from]. unfold fetch. run.
    rewrite !Hdown. by run. }
  destruct (localStorage_readable h'); run; [|apply Hgw].
  destruct (shared_circuits b) as [| |[own|assigned shows]]; run.
  - rewrite lookup_empty. run. apply Hgw.
  - apply Hgw.
  - destruct (own !! mockCid stringify A); [done|]. run. apply Hgw.
  - rewrite Hlocal. run. apply Hgw.
Qed.

Lemma fallback_upload_without_storage_is_cache_only_witness :
  ∃ r b1,
    upload plain_stringify no_storage demo warm = (Returned r, b1)
    ∧ shared_circuits b1 = shared_circuits warm
    ∧ ∀ h', local_hit h' warm (upload_cid r) = None →
        (∀ url, fetch_get h' url = None) →
        fst ((clearCache;; download h' (upload_cid r)) b1)
        = Thrown ("Failed to fetch circuit from IPFS: " +:+ upload_cid r).
Proof.
  apply (fallback_upload_without_storage_is_cache_only plain_stringify no_storage
           demo warm);
    [reflexivity | by eexists | by left].
Defined.

(** X6. When the provider answers with an identifier, [upload] returns
    that identifier with the URL [getIPFSUrl] gives for it, caches the
    artifact, and neither reads nor writes localStorage: the one request to
    the provider is all it adds to the log.  On the fallback path the URL
    is the one [getShareUrl] gives for the mock identifier. *)
Theorem upload_urls stringify (h : host) (A : SharedCircuit) (b : browser)
    (r : UploadResult) (b1 : browser) :
  upload stringify h A b = (Returned r, b1) →
  (remote_failed h (stringify A) = false →
     upload_url r = getIPFSUrl (upload_cid r)
     ∧ (json <$> fetch_add h (stringify A)) = Some (Some (upload_cid r))
     ∧ b1 = {| cache := <[upload_cid r := Artifact A]> (cache b);
               shared_circuits := shared_circuits b;
               gallery := gallery b;
               log := log b ++ [Fetch (INFURA_IPFS_API +:+ "/add")] |})
  ∧ (remote_failed h (stringify A) = true →
       upload_url r = getShareUrl h (upload_cid r)).
Proof.
  unfold getShareUrl, getIPFSUrl. unfold_upload.
  destruct (fetch_add h (stringify A)) as [[[] [hash|]]|]; answered.
  1: { intros Hup. simplify_eq. split; [done|]. intros Hno. by apply bool_decide_eq_true_1 in Hno. }
  all: intros Hup; split; [by intros ?|intros _].
  all: destruct (window_origin h) as [origin|]; run.
  all: destruct (localStorage_readable h), (localStorage_writable h);
         destruct (shared_circuits b) as [| |[own|[| |] shows]]; run.
  all: by simplify_eq.
Qed.

Lemma upload_urls_witness :
  (upload_url (Build_UploadResult "QmRemote" "https://ipfs.io/ipfs/QmRemote")
     = getIPFSUrl "QmRemote"
   ∧ (json <$> fetch_add online (plain_stringify demo)) = Some (Some "QmRemote")
   ∧ snd (upload plain_stringify online demo warm)
     = {| cache := <["QmRemote" := Artifact demo]> (cache warm);
          shared_circuits := shared_circuits warm;
          gallery := gallery warm;
          log := log warm ++ [Fetch (INFURA_IPFS_API +:+ "/add")] |})
  ∧ upload_url
      (Build_UploadResult (mockCid plain_stringify demo)
         ("http://localhost:3000/share/" +:+ mockCid plain_stringify demo))
    = getShareUrl offline (mockCid plain_stringify demo).
Proof.
  split.
  - apply (proj1 (upload_urls plain_stringify online demo warm
                    (Build_UploadResult "QmRemote" "https://ipfs.io/ipfs/QmRemote")
                    (snd (upload plain_stringify online demo warm)) eq_refl)).
    reflexivity.
  - apply (proj2 (upload_urls plain_stringify offline demo fresh
                    (Build_UploadResult (mockCid plain_stringify demo)
                       ("http://localhost:3000/share/" +:+ mockCid plain_stringify demo))
                    (snd (upload plain_stringify offline demo fresh)) eq_refl)).
    reflexivity.
Defined.






(** X24. [pin] is best effort: it never throws.  It makes one request to
    the provider's pin endpoint and returns whether the answer was a 2xx
    one, [false] when the request itself failed; the cache and localStorage
    are left alone. *)
Theorem pin_best_effort {T} (answer : string → option (response T)) (c : string)
    (b : browser) :
  let url := INFURA_IPFS_API +:+ "/pin/add?arg=" +:+ c in
  pin answer c b
  = (Returned (match answer url with Some r => ok r | None => false end),
     logged [Fetch url] b).
Proof.
  unfold pin, fetch, logged. run. by destruct (answer _); run.
Qed.

End IPFSMore.

Module GalleryMore.
Import GalleryService GalleryFacts.

Lemma insert_desc_perm key x l : insert_desc key x l ≡ₚ x :: l.
Proof.
  induction l as [|y l IH]; cbn; [done|].
  destruct (key x <? key y)%Z; [|done].
  by rewrite IH, Permutation_swap.
Qed.

Lemma sort_desc_perm key l : sort_desc key l ≡ₚ l.
Proof.
  induction l as [|x l IH]; cbn; [done|].
  by rewrite insert_desc_perm, IH.
Qed.







(** X9. The number of entries [getCircuits] returns from a readable
    collection of [n] entries: [limit] of them, or all [n] when there are
    fewer, for [limit >= 0]; and [n + limit] of them (none if that is
    negative) for [limit < 0], since [slice(0, limit)] then drops the last
    [-limit] entries. *)
Theorem getCircuits_length (h : host) (b : browser) (f : filter) (limit : Z)
    (g : list GalleryCircuit) :
  localStorage_readable h = true →
  gallery b = Parsed g →
  ∃ found,
    fst (getCircuits h f limit b) = Returned found
    ∧ Z.of_nat (length found)
      = (if (limit <? 0)%Z then Z.max 0 (Z.of_nat (length g) + limit)
         else Z.min limit (Z.of_nat (length g)))%Z.
Proof.
  intros Hr Hg.
  unfold getCircuits, parse_item, slice_to. run. rewrite Hr. run. rewrite Hg. run.
  eexists. split; [reflexivity|].
  assert (∀ l : list GalleryCircuit, l ≡ₚ g → length l = length g) as Hlen
    by (by intros l ->).
  destruct (Z.ltb_spec limit 0); rewrite length_take;
    destruct f; rewrite ?Hlen by apply sort_desc_perm; lia.
Qed.

Lemma getCircuits_length_witness :
  ∃ found,
    fst (getCircuits here recent (-1) shelf) = Returned found
    ∧ Z.of_nat (length found)
      = (if (-1 <? 0)%Z then Z.max 0 (Z.of_nat (length (entries shelf)) + -1)
         else Z.min (-1) (Z.of_nat (length (entries shelf))))%Z.
Proof.
  apply (getCircuits_length here shelf recent (-1) (entries shelf)); done.
Defined.

Lemma addCircuit_written h b A :
  localStorage_readable h = true →
  localStorage_writable h = true →
  gallery b ≠ Garbled →
  addCircuit h A b
  = (Returned {| shared := A; views := 0; likes := 0 |},
     set_gallery (Parsed (take 100 (upserted A (entries b))))
       (logged [GetItem STORAGE_KEY; SetItem STORAGE_KEY] b)).
Proof.
  intros Hr Hw Hg.
  unfold upserted, entries, logged, set_gallery. unfold_gallery. rewrite Hr, Hw. run.
  destruct (gallery b) as [| |circuits]; [|done|]; run;
    by rewrite <- app_assoc.
Qed.

Lemma addCircuit_unwritten h b A :
  localStorage_readable h = false ∨ localStorage_writable h = false
    ∨ gallery b = Garbled →
  gallery (snd (addCircuit h A b)) = gallery b.
Proof.
  unfold_gallery. intros [Hr|[Hw|Hg]]; rewrite ?Hr, ?Hw, ?Hg; run.
  - done.
  - destruct (localStorage_readable h); run; [|done].
    by destruct (gallery b).
  - by destruct (localStorage_readable h); run.
Qed.

Lemma lacks_or_first id g :
  lacks id g
  ∨ ∃ l1 e l2, g = l1 ++ e :: l2 ∧ lacks id l1 ∧ cid (shared e) = id.
Proof.
  induction g as [|c g IH]; [left; constructor|].
  destruct (decide (cid (shared c) = id)) as [Hc|Hc].
  - right. exists [], c, g. split; [done|]. split; [constructor|done].
  - destruct IH as [Hl|(l1 & e & l2 & -> & Hl & He)].
    + left. by constructor.
    + right. exists (c :: l1), e, l2. split; [done|]. split; [by constructor|done].
Qed.

Lemma upserted_cases A g :
  let galleryCircuit := {| shared := A; views := 0; likes := 0 |} in
  (lacks (cid A) g ∧ upserted A g = galleryCircuit :: g)
  ∨ ∃ l1 e l2, g = l1 ++ e :: l2 ∧ lacks (cid A) l1 ∧ cid (shared e) = cid A
      ∧ upserted A g = l1 ++ galleryCircuit :: l2.
Proof.
  intros galleryCircuit. unfold upserted. fold galleryCircuit. cbv zeta.
  destruct (lacks_or_first (cid A) g) as [Hl|(l1 & e & l2 & -> & Hl & He)].
  - left. split; [done|]. unfold findIndex. by rewrite findIndex_from_lacks.
  - right. exists l1, e, l2. repeat split; try done.
    unfold findIndex. rewrite findIndex_from_first by done.
    rewrite Z.add_0_l, Nat2Z.id.
    destruct (Z.leb_spec 0 (Z.of_nat (length l1))); [|lia].
    by rewrite insert_first.
Qed.

Lemma lacks_not_elem id g : lacks id g → id ∉ cids g.
Proof.
  unfold lacks, cids. rewrite Forall_forall. intros Hl Hin.
  apply list_elem_of_fmap in Hin as (c & -> & Hc). by apply (Hl c).
Qed.

(** X10. [addCircuit] keeps the identifiers of the collection distinct:
    if no two stored entries share an identifier, none do afterwards,
    whether the write went through or not.  It leaves at most one entry
    more than it found, and never more than 100 when it writes. *)
Theorem addCircuit_keeps_unique (h : host) (b : browser) (A : SharedCircuit) :
  NoDup (cids (entries b)) →
  let after := entries (snd (addCircuit h A b)) in
  NoDup (cids after)
  ∧ length after ≤ S (length (entries b))
  ∧ (after = entries b ∨ length after ≤ 100).
Proof.
  intros Hnd after.
  assert (gallery b = Garbled ∨ gallery b ≠ Garbled) as Hgarbled
    by (destruct (gallery b); [right|left|right]; done).
  destruct (localStorage_readable h) eqn:Hr;
    [destruct (localStorage_writable h) eqn:Hw;
     [destruct Hgarbled as [Hg|Hg]|]|].
  2: { subst after. rewrite addCircuit_written by done. cbn.
       pose proof (length_take (upserted A (entries b)) 100) as Hlen.
       assert (NoDup (cids (upserted A (entries b)))
               ∧ length (upserted A (entries b)) ≤ S (length (entries b))) as [Hup Hle].
       { destruct (upserted_cases A (entries b))
           as [[Hl ->]|(l1 & e & l2 & Hsplit & Hl & He & ->)].
         - split; [|cbn; lia]. cbn. apply NoDup_cons. split; [|done].
           by apply lacks_not_elem.
         - rewrite Hsplit in *. split; [|rewrite !length_app; cbn; lia].
           unfold cids in *. rewrite fmap_app in *. cbn in *. by rewrite <- He. }
       split; [|split; [lia|right; lia]].
       unfold cids. rewrite fmap_take. eapply sublist_NoDup; [exact Hup|apply sublist_take]. }
  all: subst after; unfold entries in *;
    rewrite addCircuit_unwritten by (rewrite ?Hr, ?Hw; tauto);
    split; [done|split; [lia|by left]].
Qed.

Lemma addCircuit_keeps_unique_witness :
  NoDup (cids (entries (snd (addCircuit here age_check_v2 shelf))))
  ∧ length (entries (snd (addCircuit here age_check_v2 shelf))) ≤ S (length (entries shelf))
  ∧ (entries (snd (addCircuit here age_check_v2 shelf)) = entries shelf
     ∨ length (entries (snd (addCircuit here age_check_v2 shelf))) ≤ 100).
Proof.
  apply (addCircuit_keeps_unique here shelf age_check_v2).
  cbn. apply NoDup_cons. split; [|apply NoDup_singleton].
  intros Hin. apply list_elem_of_singleton in Hin. discriminate.
Defined.

Lemma take_100_middle {A} (l1 : list A) (x : A) (l2 : list A) :
  length l1 < 100 →
  take 100 (l1 ++ x :: l2) = l1 ++ x :: take (99 - length l1) l2.
Proof.
  intros Hlen. rewrite take_app, take_ge by lia. f_equal.
  by replace (100 - length l1) with (S (99 - length l1)) by lia.
Qed.

(** X11. Publishing and then viewing: after [addCircuit] of an artifact
    and [incrementViews] of its identifier, with a storage that can be read
    and written, the entry of the artifact has one view and no like.  It
    sits at the front when the identifier was new, and in the place of the
    first entry that had the identifier otherwise (a place below the cut of
    100); whatever had been counted for that entry before is gone. *)
Theorem addCircuit_then_incrementViews (h : host) (b : browser) (A : SharedCircuit)
    (l1 l2 : list GalleryCircuit) :
  localStorage_readable h = true →
  localStorage_writable h = true →
  gallery b ≠ Garbled →
  lacks (cid A) l1 →
  length l1 < 100 →
  (l1 = [] ∧ entries b = l2 ∧ lacks (cid A) l2)
    ∨ (∃ e, entries b = l1 ++ e :: l2 ∧ cid (shared e) = cid A) →
  (addCircuit h A;; incrementViews h (cid A)) b
  = (Returned tt,
     set_gallery
       (Parsed (take 100 (l1 ++ {| shared := A; views := 1; likes := 0 |} :: l2)))
       (logged [GetItem STORAGE_KEY; SetItem STORAGE_KEY;
                GetItem STORAGE_KEY; SetItem STORAGE_KEY] b)).
Proof.
  intros Hr Hw Hg Hl1 Hlen Hcase.
  assert (upserted A (entries b) = l1 ++ {| shared := A; views := 0; likes := 0 |} :: l2)
    as Hup.
  { destruct (upserted_cases A (entries b))
      as [[Hl ->]|(k1 & e & k2 & Hsplit & Hk & He & ->)];
      destruct Hcase as [(-> & <- & Hl2)|(e' & Hsplit' & He')]; try done.
    - exfalso. rewrite Hsplit' in Hl. apply Forall_app in Hl as [_ Hl].
      by inversion Hl.
    - exfalso. rewrite Hsplit in Hl2. apply Forall_app in Hl2 as [_ Hl2].
      by inversion Hl2.
    - rewrite Hsplit in Hsplit'.
      assert (length k1 = length l1) as Hsame.
      { pose proof (find_first (cid A) k1 e k2 Hk He) as H1.
        pose proof (find_first (cid A) l1 e' l2 Hl1 He') as H2.
        rewrite Hsplit' in H1. congruence. }
      apply app_inj_1 in Hsplit' as [-> Heq]; [|done]. by injection Heq as _ ->. }
  unfold bind at 1. rewrite addCircuit_written by done. rewrite Hup.
  rewrite !take_100_middle by done.
  unfold incrementViews, parse_item, store_item. run. rewrite Hr, Hw. run.
  rewrite (find_first (cid A) l1 {| shared := A; views := 0; likes := 0 |} _ Hl1 eq_refl).
  run. rewrite alter_first. unfold set_gallery, logged, views_incr. cbn.
  by rewrite <- !app_assoc.
Qed.

Lemma addCircuit_then_incrementViews_witness :
  (addCircuit here age_check_v2;; incrementViews here (cid age_check_v2)) shelf
  = (Returned tt,
     set_gallery
       (Parsed (take 100 ([] ++ {| shared := age_check_v2; views := 1; likes := 0 |}
                          :: [ {| shared := merkle; views := 1; likes := 1 |} ])))
       (logged [GetItem STORAGE_KEY; SetItem STORAGE_KEY;
                GetItem STORAGE_KEY; SetItem STORAGE_KEY] shelf)).
Proof.
  apply (addCircuit_then_incrementViews here shelf age_check_v2 []
           [ {| shared := merkle; views := 1; likes := 1 |} ]);
    [reflexivity | reflexivity | discriminate | constructor | cbn; lia |].
  right. by eexists.
Defined.

Lemma incrementViews_present h b id l1 c l2 :
  gallery b = Parsed (l1 ++ c :: l2) →
  lacks id l1 → cid (shared c) = id →
  localStorage_readable h = true → localStorage_writable h = true →
  incrementViews h id b
  = (Returned tt,
     set_gallery (Parsed (l1 ++ views_incr c :: l2))
       (logged [GetItem STORAGE_KEY; SetItem STORAGE_KEY] b)).
Proof.
  intros Hg Hl Hc Hr Hw. unfold incrementViews, parse_item, store_item. run.
  rewrite Hr, Hw. run. rewrite Hg. run.
  rewrite (find_first _ _ _ _ Hl Hc). run.
  rewrite alter_first. unfold set_gallery, logged. cbn.
  by rewrite <- !app_assoc.
Qed.

Lemma findIndex_from_alter id (f : GalleryCircuit → GalleryCircuit) i l start :
  (∀ c, cid (shared (f c)) = cid (shared c)) →
  findIndex_from (has_cid id) (alter f i l) start = findIndex_from (has_cid id) l start.
Proof.
  intros Hf. revert i start. induction l as [|c l IH]; intros i start; [done|].
  destruct i as [|i]; cbn.
  - unfold has_cid. by rewrite Hf.
  - by rewrite IH.
Qed.

Lemma find_alter id (f : GalleryCircuit → GalleryCircuit) i l :
  (∀ c, cid (shared (f c)) = cid (shared c)) →
  find (has_cid id) (alter f i l) = find (has_cid id) l.
Proof. intros Hf. unfold find, findIndex. by rewrite findIndex_from_alter. Qed.

(** X12. A view and a like of the same identifier can be counted in
    either order: [incrementViews] then [incrementLikes] leaves the very
    state that [incrementLikes] then [incrementViews] leaves, in every
    state of the storage. *)
Theorem increments_commute (h : host) (b : browser) (id : string) :
  (incrementViews h id;; incrementLikes h id) b
  = (incrementLikes h id;; incrementViews h id) b.
Proof.
  unfold incrementViews, incrementLikes, parse_item, store_item. run.
  destruct (localStorage_readable h); run; [|done].
  destruct (gallery b) as [| |circuits]; run; [done|done|].
  destruct (find (has_cid id) circuits) as [i|] eqn:Hfind; run.
  - destruct (localStorage_writable h); run.
    + rewrite !find_alter, Hfind by done. run.
      rewrite !list_alter_alter_eq. unfold set_gallery. cbn.
      by rewrite (list_alter_ext (likes_incr ∘ views_incr) (views_incr ∘ likes_incr)
                    circuits circuits i).
    + rewrite Hfind. by run.
  - rewrite Hfind. by run.
Qed.

(** Whole numbers up to 2^53 in size are doubles: nothing is rounded. *)
Lemma round_to_double_exact m : (Z.abs m ≤ 2 ^ 53)%Z → round_to_double m = m.
Proof.
  intros Hm.
  destruct (Z.le_gt_cases (Z.log2 (Z.abs m) - 52) 0) as [Hk|Hk].
  - unfold round_to_double. cbv zeta. by rewrite (proj2 (Z.leb_le _ _) Hk).
  - assert (0 < Z.abs m)%Z as Hpos.
    { destruct (Z.eq_dec (Z.abs m) 0%Z) as [H0|H0]; [|lia].
      rewrite H0 in Hk. cbn in Hk. lia. }
    pose proof (Z.log2_spec (Z.abs m) Hpos) as [Hlo _].
    assert (2 ^ 53 ≤ 2 ^ Z.log2 (Z.abs m))%Z as Hpow
      by (apply Z.pow_le_mono_r; lia).
    assert (m = 2 ^ 53 ∨ m = - 2 ^ 53)%Z as [-> | ->] by lia;
      vm_compute; reflexivity.
Qed.

(** X13. Views add up, as long as they stay within the whole numbers a
    double counts exactly: [n] calls of [incrementViews] for an identifier
    that is present, whose views are at least -2^53 and, raised by [n], at
    most 2^53, with a storage that can be read and written, raise the
    [views] of the first entry with that identifier by [n], and change
    nothing else in the collection. *)
Theorem incrementViews_times (h : host) (id : string) (n : nat) (b : browser)
    (l1 : list GalleryCircuit) (c : GalleryCircuit) (l2 : list GalleryCircuit) :
  localStorage_readable h = true →
  localStorage_writable h = true →
  gallery b = Parsed (l1 ++ c :: l2) →
  lacks id l1 →
  cid (shared c) = id →
  (- 2 ^ 53 ≤ views c)%Z →
  (views c + Z.of_nat n ≤ 2 ^ 53)%Z →
  fst (times n (incrementViews h id) b) = Returned tt
  ∧ gallery (snd (times n (incrementViews h id) b))
    = Parsed (l1 ++ {| shared := shared c; views := views c + Z.of_nat n;
                       likes := likes c |} :: l2).
Proof.
  intros Hr Hw Hg Hl Hc. revert b c Hg Hc.
  induction n as [|n IH]; intros b c Hg Hc Hlow Hhigh.
  - cbn. split; [done|]. rewrite Hg, Z.add_0_r. by destruct c.
  - cbn [times]. unfold bind.
    rewrite (incrementViews_present h b id l1 c l2 Hg Hl Hc Hr Hw).
    assert (incr (views c) = views c + 1)%Z as Hincr.
    { apply round_to_double_exact. lia. }
    destruct (IH (set_gallery (Parsed (l1 ++ views_incr c :: l2))
                    (logged [GetItem STORAGE_KEY; SetItem STORAGE_KEY] b))
                 (views_incr c) eq_refl Hc) as [-> ->].
    { unfold views_incr. cbn [views]. lia. }
    { unfold views_incr. cbn [views]. lia. }
    split; [done|]. unfold views_incr. cbn [shared views likes]. rewrite Hincr.
    by replace (views c + Z.of_nat (S n))%Z with (views c + 1 + Z.of_nat n)%Z by lia.
Qed.

Lemma incrementViews_times_witness :
  fst (times 3 (incrementViews here "Qm2") shelf) = Returned tt
  ∧ gallery (snd (times 3 (incrementViews here "Qm2") shelf))
    = Parsed ([ {| shared := age_check; views := 5; likes := 2 |} ]
              ++ {| shared := shared {| shared := merkle; views := 1; likes := 1 |};
                    views := views {| shared := merkle; views := 1; likes := 1 |}
                             + Z.of_nat 3;
                    likes := likes {| shared := merkle; views := 1; likes := 1 |} |}
              :: []).
Proof.
  apply (incrementViews_times here "Qm2" 3 shelf
           [ {| shared := age_check; views := 5; likes := 2 |} ]
           {| shared := merkle; views := 1; likes := 1 |} []);
    try reflexivity; [repeat constructor; discriminate | cbn; lia | cbn; lia].
Defined.

(** Past 2^53 the count is lost: a counter at 2^53 stays there, and one
    at 2^53 + 2 goes to 2^53 + 4. *)
Example incrementViews_saturates :
  gallery (snd (times 3 (incrementViews here "Qm2") crowded))
  = Parsed [ {| shared := merkle; views := 2 ^ 53; likes := 0 |} ]
  ∧ incr (2 ^ 53 + 2) = (2 ^ 53 + 4)%Z.
Proof. split; vm_compute; reflexivity. Qed.

Lemma prefix_app q s : String.prefix q s = true ↔ ∃ suf, s = q +:+ suf.
Proof.
  revert s. induction q as [|a q IH]; intros s; simpl.
  - destruct s; split; eauto.
  - destruct s as [|a' s]; simpl.
    + split; [done|]. intros [suf Hs].
      change ("" = String a (q +:+ suf)) in Hs. done.
    + destruct (ascii_dec a a') as [->|Ha].
      * rewrite IH. split; intros [suf Hs]; exists suf.
        -- subst s. reflexivity.
        -- change (String a' s = String a' (q +:+ suf)) in Hs. by injection Hs.
      * split; [done|]. intros [suf Hs].
        change (String a' s = String a (q +:+ suf)) in Hs. by injection Hs.
Qed.

Lemma occurs_in_prefix q s : String.prefix q s = true → occurs_in q s.
Proof. intros Hp. apply prefix_app in Hp as [suf Hs]. exists "", suf. exact Hs. Qed.

Lemma occurs_in_cons q a s :
  occurs_in q (String a s) ↔ String.prefix q (String a s) = true ∨ occurs_in q s.
Proof.
  split.
  - intros ([|a' pre] & suf & Hs).
    + left. apply prefix_app. exists suf. exact Hs.
    + right. change (String a s = String a' (pre +:+ q +:+ suf)) in Hs.
      injection Hs as _ ->. by exists pre, suf.
  - intros [Hp|(pre & suf & ->)]; [by apply occurs_in_prefix|].
    by exists (String a pre), suf.
Qed.

Lemma occurs_in_empty q : occurs_in q "" ↔ String.prefix q "" = true.
Proof.
  split; [|apply occurs_in_prefix].
  intros ([|a' pre] & suf & Hs).
  - apply prefix_app. exists suf. exact Hs.
  - change ("" = String a' (pre +:+ q +:+ suf)) in Hs. done.
Qed.

Lemma includes_from_occurs s q :
  includes_from (String.length s) s q = true ↔ occurs_in q s.
Proof.
  induction s as [|a s IH].
  - rewrite occurs_in_empty. cbn [String.length includes_from].
    by destruct (String.prefix q "").
  - rewrite occurs_in_cons, <- IH. cbn [String.length includes_from].
    destruct (String.prefix q (String a s)); [tauto|].
    split; [by right|]. by intros [?|?].
Qed.

Lemma includes_occurs s q : includes s q = true ↔ occurs_in q s.
Proof. apply includes_from_occurs. Qed.

Lemma List_filter_sublist {A} (p : A → bool) (l : list A) :
  List.filter p l `sublist_of` l.
Proof.
  induction l as [|x l IH]; cbn; [done|].
  destruct (p x); [by apply sublist_skip|by apply sublist_cons].
Qed.

Lemma List_filter_all {A} (p : A → bool) (l : list A) :
  (∀ x, p x = true) → List.filter p l = l.
Proof.
  intros Hp. induction l as [|x l IH]; cbn; [done|]. by rewrite Hp, IH.
Qed.

(** X14. With a collection that can be read, [searchCircuits] returns
    exactly the stored entries that match the query, in the order they are
    stored in, and writes nothing; for the empty query that is the whole
    collection. *)
Theorem searchCircuits_matches (h : host) (b : browser) (query : string)
    (g : list GalleryCircuit) :
  localStorage_readable h = true →
  gallery b = Parsed g →
  ∃ found,
    searchCircuits h query b = (Returned found, logged [GetItem STORAGE_KEY] b)
    ∧ found `sublist_of` g
    ∧ (∀ c, c ∈ found ↔ c ∈ g ∧ matches query c)
    ∧ (query = "" → found = g).
Proof.
  intros Hr Hg. unfold searchCircuits, parse_item, logged. run. rewrite Hr. run.
  rewrite Hg. run. eexists. split; [reflexivity|].
  set (p := λ c : GalleryCircuit, _).
  assert (∀ c, p c = true ↔ matches query c) as Hp.
  { intros c. unfold p, matches.
    rewrite !orb_true_iff, !includes_occurs, existsb_exists. split.
    - intros [[?|?]|(t & Hin & Ht)]; [by left|by right; left|].
      right. right. exists t. by rewrite list_elem_of_In, <- includes_occurs.
    - intros [?|[?|(t & Hin & Ht)]]; [by left; left|by left; right|].
      right. exists t. by rewrite <- list_elem_of_In, includes_occurs. }
  split; [|split].
  - apply List_filter_sublist.
  - intros c. rewrite list_elem_of_In, filter_In, <- list_elem_of_In. by rewrite Hp.
  - intros ->. apply List_filter_all. intros c.
    apply Hp. left. by exists "", (toLowerCase (title (shared c))).
Qed.

Lemma searchCircuits_matches_witness :
  ∃ found,
    searchCircuits here "MERKLE" shelf = (Returned found, logged [GetItem STORAGE_KEY] shelf)
    ∧ found `sublist_of` entries shelf
    ∧ (∀ c, c ∈ found ↔ c ∈ entries shelf ∧ matches "MERKLE" c)
    ∧ ("MERKLE" = "" → found = entries shelf).
Proof.
  apply (searchCircuits_matches here shelf "MERKLE" (entries shelf)); reflexivity.
Defined.

Example search_ignores_case :
  fst (searchCircuits here "MERKLE" shelf)
  = Returned [ {| shared := merkle; views := 1; likes := 1 |} ].
Proof. reflexivity. Qed.

End GalleryMore.

Module SunspotMore.
Import SunspotService SunspotFacts.

(** X15. The explorer links.  On mainnet the link is the explorer's
    address, [/tx/] (or [/address/]), the signature (or the program), and a
    bare [?].  On devnet and testnet the slash that ends the base URL before
    its query stays, so the path starts with two slashes, and the query is
    [?&cluster=] and the network's name. *)
Theorem explorer_urls (id : string) :
  getExplorerUrl mainnet_beta id
    = "https://explorer.solana.com/tx/" +:+ id +:+ "?"
  ∧ getExplorerUrl devnet id
    = "https://explorer.solana.com//tx/" +:+ id +:+ "?&cluster=devnet"
  ∧ getExplorerUrl testnet id
    = "https://explorer.solana.com//tx/" +:+ id +:+ "?&cluster=testnet"
  ∧ getProgramExplorerUrl mainnet_beta id
    = "https://explorer.solana.com/address/" +:+ id +:+ "?"
  ∧ getProgramExplorerUrl devnet id
    = "https://explorer.solana.com//address/" +:+ id +:+ "?&cluster=devnet"
  ∧ getProgramExplorerUrl testnet id
    = "https://explorer.solana.com//address/" +:+ id +:+ "?&cluster=testnet".
Proof. repeat split; reflexivity. Qed.

Lemma default_last_cons {A} (current x : A) (l : list A) :
  default current (last (x :: l)) = default x (last l).
Proof.
  revert current x. induction l as [|y l IH]; intros current x; [done|].
  by rewrite last_cons_cons, (IH current y), (IH x y).
Qed.

Lemma getSunspotService_opens accepts env n sunspotInstance :
  is_Some n ∨ sunspotInstance = None →
  accepts (RPC_ENDPOINTS env (default devnet n)) = true →
  getSunspotService accepts env n sunspotInstance
  = (Returned {| connection_endpoint := RPC_ENDPOINTS env (default devnet n);
                 service_network := default devnet n |},
     Some {| connection_endpoint := RPC_ENDPOINTS env (default devnet n);
             service_network := default devnet n |}).
Proof.
  intros Hnew Haccepts.
  unfold getSunspotService, new_SunspotService, setNetwork, new_Connection.
  destruct sunspotInstance as [instance|], n as [n|];
    cbn [default from_option id] in *; run;
    rewrite ?Haccepts; run; try done.
  by destruct Hnew as [[? ?]|?].
Qed.

Lemma after_calls_from accepts env calls current :
  Forall (λ n, accepts (RPC_ENDPOINTS env n) = true) (omap id calls) →
  after_calls accepts env calls
    (Some {| connection_endpoint := RPC_ENDPOINTS env current; service_network := current |})
  = Some {| connection_endpoint :=
              RPC_ENDPOINTS env (default current (last (omap id calls)));
            service_network := default current (last (omap id calls)) |}.
Proof.
  revert current. induction calls as [|n calls IH]; intros current Haccepts;
    [reflexivity|].
  unfold after_calls in *. cbn [fold_left].
  destruct n as [n|].
  - change (omap id (Some n :: calls)) with (n :: omap id calls) in *.
    apply Forall_cons in Haccepts as [Hn Haccepts].
    rewrite (getSunspotService_opens accepts env (Some n)) by eauto.
    cbn [snd default from_option id]. by rewrite IH, default_last_cons.
  - change (omap id (None :: calls)) with (omap id calls) in *.
    cbn [getSunspotService snd]. by rewrite IH.
Qed.

(** X16. The shared instance follows the last explicit request, as long
    as the library takes the endpoints of the networks asked for (those of
    mainnet and testnet are fixed, that of devnet may come from the
    environment): after any series of calls of [getSunspotService],
    starting with no instance, the instance works on the network of the
    last call that named one ([devnet] if none did), with a connection
    opened on that network's endpoint; calls without a network leave it as
    it is. *)
Theorem getSunspotService_follows_last_request accepts env
    (first : option DeploymentNetwork) (calls : list (option DeploymentNetwork)) :
  Forall (λ n, accepts (RPC_ENDPOINTS env n) = true)
    (default devnet first :: omap id calls) →
  after_calls accepts env (first :: calls) None
  = Some {| connection_endpoint := RPC_ENDPOINTS env (last_asked (first :: calls));
            service_network := last_asked (first :: calls) |}.
Proof.
  intros Haccepts. apply Forall_cons in Haccepts as [Hfirst Haccepts].
  unfold after_calls. cbn [fold_left].
  rewrite getSunspotService_opens by eauto. cbn [snd].
  fold (after_calls accepts env calls). rewrite after_calls_from by done.
  unfold last_asked.
  destruct first as [n|].
  - change (omap id (Some n :: calls)) with (n :: omap id calls).
    by rewrite default_last_cons.
  - done.
Qed.

Lemma getSunspotService_follows_last_request_witness :
  after_calls http_endpoint (Some "http://localhost:8899")
    [Some testnet; None; Some devnet; None] None
  = Some {| connection_endpoint :=
              RPC_ENDPOINTS (Some "http://localhost:8899")
                (last_asked [Some testnet; None; Some devnet; None]);
            service_network := last_asked [Some testnet; None; Some devnet; None] |}.
Proof.
  apply (getSunspotService_follows_last_request http_endpoint
           (Some "http://localhost:8899") (Some testnet) [None; Some devnet; None]).
  repeat constructor.
Defined.

(** With an endpoint in the environment that the library refuses, the
    first call throws and leaves no instance; and an instance made for
    another network, asked for devnet, is left with devnet as its network
    and its old connection. *)
Example getSunspotService_refused_endpoint :
  getSunspotService http_endpoint (Some "localhost:8899") None None
  = (Thrown "TypeError: Endpoint URL must start with `http:` or `https:`.", None)
  ∧ after_calls http_endpoint (Some "localhost:8899") [Some testnet; Some devnet] None
    = Some {| connection_endpoint := "https://api.testnet.solana.com";
              service_network := devnet |}.
Proof. split; reflexivity. Qed.

(** X17. The estimate covers the deployment: when the rent grows with
    the size of the account, the lamports that [estimateDeploymentCost]
    announces for a verification key are at least 5000 above what
    [deployVerifier] then reports as its cost for that key. *)
Theorem estimate_covers_cost connection net config wallet sign onProgress
    (total : Z * Z) (r : SunspotDeploymentResult) (t0 t1 t2 t3 : trace) :
  (∀ s1 s2 l1 l2, (s1 ≤ s2)%Z →
     minimumBalanceForRentExemption connection s1 = Returned l1 →
     minimumBalanceForRentExemption connection s2 = Returned l2 → (l1 ≤ l2)%Z) →
  estimateDeploymentCost connection (Z.of_nat (length (verificationKey config))) t0
    = (Returned total, t1) →
  deployVerifier connection net config wallet sign onProgress t2 = (Returned r, t3) →
  snd total = snd (cost r) ∧ (fst (cost r) + 5000 ≤ fst total)%Z.
Proof.
  intros Hmono Hest Hrun.
  unfold estimateDeploymentCost, await, observe in Hest. run.
  destruct (minimumBalanceForRentExemption connection
              (Z.of_nat (length (verificationKey config)) + 1000))
    as [rent1000|] eqn:H1000; [|discriminate].
  injection Hest as <- _.
  unfold deployVerifier, report, await, observe in Hrun. run.
  destruct (minimumBalanceForRentExemption connection
              (Z.of_nat (length (verificationKey config)) + 64))
    as [rent64|] eqn:H64.
  2: { repeat match type of Hrun with
              | context [match ?x with _ => _ end] => destruct x; try discriminate Hrun
              end. }
  assert (rent64 ≤ rent1000)%Z as Hle
    by (eapply Hmono; [|exact H64|exact H1000]; lia).
  repeat match type of Hrun with
         | context [match ?x with _ => _ end] => destruct x; try discriminate Hrun
         end.
  all: injection Hrun as <- _; cbn; split; [done|lia].
Qed.

Lemma estimate_covers_cost_witness :
  snd (7876760%Z, LAMPORTS_PER_SOL)
    = snd (cost {| programId := verifier_key; transactionSignature := signature1;
                   deployed_network := devnet;
                   cost := (1357200%Z, LAMPORTS_PER_SOL) |})
  ∧ (fst (cost {| programId := verifier_key; transactionSignature := signature1;
                  deployed_network := devnet;
                  cost := (1357200%Z, LAMPORTS_PER_SOL) |}) + 5000
     ≤ fst (7876760%Z, LAMPORTS_PER_SOL))%Z.
Proof.
  eapply (estimate_covers_cost ledger devnet key3 wallet_key wallet_signs (Some recorder)
            (7876760%Z, LAMPORTS_PER_SOL) _ [] _ []).
  - intros s1 s2 l1 l2 Hs [= <-] [= <-]. lia.
  - apply returned_run. vm_compute. reflexivity.
  - apply returned_run. vm_compute. reflexivity.
Defined.

Ltac each_answer :=
  repeat match goal with
         | |- context [match ?x with _ => _ end] => destruct x; cbn
         end.

(** X18. Whatever becomes of a call, the progress values handed to the
    callback are a beginning of the full series (10, 20, 30, 40, 50, 70,
    85, 100 for [deployVerifier]; 10, 30, 50, 70, 85, 100 for
    [verifyProofOnChain]): a failing call stops reporting, it never reports
    out of order; and 100 is reported exactly by the calls that return. *)
Theorem progress_of_any_run connection net wallet sign :
  (∀ config,
     let run := deployVerifier connection net config wallet sign (Some recorder) [] in
     progress_values (snd run) `prefix_of` [10; 20; 30; 40; 50; 70; 85; 100]%Z
     ∧ returned (fst run) = bool_decide (100%Z ∈ progress_values (snd run)))
  ∧ (∀ config,
       let run := verifyProofOnChain connection net config wallet sign (Some recorder) [] in
       progress_values (snd run) `prefix_of` [10; 30; 50; 70; 85; 100]%Z
       ∧ returned (fst run) = bool_decide (100%Z ∈ progress_values (snd run))).
Proof.
  split; intros config run; subst run; unfold_calls; cbn; each_answer;
    (split; [by eexists|reflexivity]).
Qed.

(** X19. The callback is only listened to: without [onProgress] both
    operations make the same calls in the same order and end in the same
    way (same record or same error) as with a callback that records what
    it is handed. *)
Theorem callback_is_optional connection net wallet sign :
  (∀ config,
     let heard := deployVerifier connection net config wallet sign (Some recorder) [] in
     let unheard := deployVerifier connection net config wallet sign None [] in
     fst unheard = fst heard ∧ snd unheard = List.filter is_call (snd heard))
  ∧ (∀ config,
       let heard := verifyProofOnChain connection net config wallet sign (Some recorder) [] in
       let unheard := verifyProofOnChain connection net config wallet sign None [] in
       fst unheard = fst heard ∧ snd unheard = List.filter is_call (snd heard)).
Proof.
  split; intros config heard unheard; subst heard unheard; unfold_calls; cbn;
    each_answer; by split.
Qed.

(** X20. What a successful deployment amounts to.  The record names the
    account generated for this call, the signature the ledger gave for the
    signed transaction, the network of the service, and as cost the
    rent-exempt minimum for the key's length plus 64 bytes.  The only
    transaction handed to the signer creates that account, funded with that
    minimum and owned by the system program, paid by the wallet and already
    signed by the new account; it has no other instruction: the
    verification key itself is never part of it. *)
Theorem deployment_record connection net config wallet sign r t :
  deployVerifier connection net config wallet sign (Some recorder) [] = (Returned r, t) →
  let size := (Z.of_nat (length (verificationKey config)) + 64)%Z in
  ∃ lamports blockhash height signed,
    minimumBalanceForRentExemption connection size = Returned lamports
    ∧ latestBlockhash connection = Returned (blockhash, height)
    ∧ r = {| programId := generate connection;
             transactionSignature := transactionSignature r;
             deployed_network := net;
             cost := (lamports, 1000000000%Z) |}
    ∧ (∀ transaction, Called (signTransaction transaction) ∈ t →
         transaction
         = {| instructions :=
                [SystemProgram_createAccount wallet (programId r) lamports size
                   SystemProgram_programId];
              recentBlockhash := Some blockhash;
              feePayer := Some wallet;
              signatures := [programId r] |}
         ∧ sign transaction = Returned signed)
    ∧ sendRaw connection signed = Returned (transactionSignature r).
Proof.
  intros Hrun size.
  destruct (deployVerifier_success _ _ _ _ _ _ _ Hrun)
    as (lamports & blockhash & height & signed & signature & result
        & Hrent & Hhash & Hsign & Hsend & _ & -> & ->).
  exists lamports, blockhash, height, signed.
  split; [done|]. split; [done|]. split; [done|]. split; [|done].
  intros transaction Hin. apply list_elem_of_In in Hin. cbn in Hin.
  repeat (destruct Hin as [Hin|Hin]; [try discriminate Hin|]); [|done].
  injection Hin as <-. by split.
Qed.

Lemma deployment_record_witness :
  ∃ lamports blockhash height signed,
    minimumBalanceForRentExemption ledger 67 = Returned lamports
    ∧ latestBlockhash ledger = Returned (blockhash, height)
    ∧ {| programId := verifier_key; transactionSignature := signature1;
         deployed_network := devnet; cost := (1357200%Z, LAMPORTS_PER_SOL) |}
      = {| programId := generate ledger;
           transactionSignature := signature1;
           deployed_network := devnet;
           cost := (lamports, 1000000000%Z) |}
    ∧ (∀ transaction,
         Called (signTransaction transaction)
           ∈ snd (deployVerifier ledger devnet key3 wallet_key wallet_signs (Some recorder) []) →
         transaction
         = {| instructions :=
                [SystemProgram_createAccount wallet_key verifier_key lamports 67
                   SystemProgram_programId];
              recentBlockhash := Some blockhash;
              feePayer := Some wallet_key;
              signatures := [verifier_key] |}
         ∧ wallet_signs transaction = Returned signed)
    ∧ sendRaw ledger signed = Returned signature1.
Proof.
  apply (deployment_record ledger devnet key3 wallet_key wallet_signs
           {| programId := verifier_key; transactionSignature := signature1;
              deployed_network := devnet; cost := (1357200%Z, LAMPORTS_PER_SOL) |}
           (snd (deployVerifier ledger devnet key3 wallet_key wallet_signs (Some recorder) []))).
  vm_compute. reflexivity.
Defined.

(** X21. What a successful verification sends.  The transaction handed
    to the signer has one instruction, addressed to the system program, on
    the verifier account (read-only) and the wallet (signer), whose data
    are the proof bytes followed by the public inputs joined with commas;
    it is paid by the wallet and carries no signature yet.  What the signer
    returns is what is submitted, and the record carries the signature the
    ledger gave for it and the time of [Date.now()]. *)
Theorem verification_transaction connection net config wallet sign r t :
  verifyProofOnChain connection net config wallet sign (Some recorder) [] = (Returned r, t) →
  ∃ verifier blockhash height signed,
    PublicKey_new connection (verifier_programId config) = Returned verifier
    ∧ latestBlockhash connection = Returned (blockhash, height)
    ∧ (∀ transaction, Called (signTransaction transaction) ∈ t →
         transaction
         = {| instructions :=
                [TransactionInstruction
                   [ {| pubkey := verifier; isSigner := false; isWritable := false |};
                     {| pubkey := wallet; isSigner := true; isWritable := false |} ]
                   SystemProgram_programId
                   (proof config ++ Buffer_from (join "," (publicInputs config)))];
              recentBlockhash := Some blockhash;
              feePayer := Some wallet;
              signatures := [] |}
         ∧ sign transaction = Returned signed)
    ∧ (∀ sent, Called (sendRawTransaction sent) ∈ t → sent = signed)
    ∧ sendRaw connection signed = Returned (verification_signature r)
    ∧ verified_network r = net
    ∧ verified_at r = Date_now connection.
Proof.
  unfold_calls. cbn.
  destruct (PublicKey_new connection _) as [verifier|] eqn:Hkey; cbn; [|discriminate].
  destruct (latestBlockhash connection) as [[blockhash height]|] eqn:Hhash;
    cbn; [|discriminate].
  destruct (sign _) as [signed|] eqn:Hsign; cbn; [|discriminate].
  destruct (sendRaw connection signed) as [signature|] eqn:Hsend; cbn; [|discriminate].
  destruct (confirm connection signature blockhash height) as [result|];
    cbn; [|discriminate].
  intros [= <- <-].
  exists verifier, blockhash, height, signed.
  split; [done|]. split; [done|]. split; [|split; [|done]].
  - intros transaction Hin. apply list_elem_of_In in Hin. cbn in Hin.
    repeat (destruct Hin as [Hin|Hin]; [try discriminate Hin|]); [|done].
    injection Hin as <-. by split.
  - intros sent Hin. apply list_elem_of_In in Hin. cbn in Hin.
    repeat (destruct Hin as [Hin|Hin]; [try discriminate Hin|]); [|done].
    by injection Hin as <-.
Qed.

Lemma verification_transaction_witness :
  ∃ verifier blockhash height signed,
    PublicKey_new ledger (verifier_programId proof2) = Returned verifier
    ∧ latestBlockhash ledger = Returned (blockhash, height)
    ∧ (∀ transaction,
         Called (signTransaction transaction)
           ∈ snd (verifyProofOnChain ledger devnet proof2 wallet_key wallet_signs
                    (Some recorder) []) →
         transaction
         = {| instructions :=
                [TransactionInstruction
                   [ {| pubkey := verifier; isSigner := false; isWritable := false |};
                     {| pubkey := wallet_key; isSigner := true; isWritable := false |} ]
                   SystemProgram_programId
                   (proof proof2 ++ Buffer_from (join "," (publicInputs proof2)))];
              recentBlockhash := Some blockhash;
              feePayer := Some wallet_key;
              signatures := [] |}
         ∧ wallet_signs transaction = Returned signed)
    ∧ (∀ sent,
         Called (sendRawTransaction sent)
           ∈ snd (verifyProofOnChain ledger devnet proof2 wallet_key wallet_signs
                    (Some recorder) []) →
         sent = signed)
    ∧ sendRaw ledger signed
      = Returned (verification_signature
                    {| isValid := true; verification_signature := signature1;
                       verified_network := devnet; verified_at := 1700000000000 |})
    ∧ verified_network
        {| isValid := true; verification_signature := signature1;
           verified_network := devnet; verified_at := 1700000000000 |} = devnet
    ∧ verified_at
        {| isValid := true; verification_signature := signature1;
           verified_network := devnet; verified_at := 1700000000000 |}
      = Date_now ledger.
Proof.
  apply (verification_transaction ledger devnet proof2 wallet_key wallet_signs
           {| isValid := true; verification_signature := signature1;
              verified_network := devnet; verified_at := 1700000000000 |}
           (snd (verifyProofOnChain ledger devnet proof2 wallet_key wallet_signs
                   (Some recorder) []))).
  vm_compute. reflexivity.
Defined.

(** X22. A verifier address that is not a public key stops
    [verifyProofOnChain] at once: it fails with the error of [new
    PublicKey], having reported 10 and nothing else, and having asked
    nothing of the ledger or of the signer. *)
Theorem verification_of_bad_address connection net config wallet sign (e : string) :
  PublicKey_new connection (verifier_programId config) = Thrown e →
  verifyProofOnChain connection net config wallet sign (Some recorder) []
  = (Thrown e, [Progress 10 "Preparing verification..."]).
Proof.
  intros Hkey. unfold_calls. cbn. by rewrite Hkey.
Qed.

Lemma verification_of_bad_address_witness :
  verifyProofOnChain strict_ledger devnet
    {| verifier_programId := "Verifier111"; proof := []; publicInputs := [];
       verification_network := devnet |}
    wallet_key wallet_signs (Some recorder) []
  = (Thrown "Invalid public key input", [Progress 10 "Preparing verification..."]).
Proof.
  apply (verification_of_bad_address strict_ledger devnet
           {| verifier_programId := "Verifier111"; proof := []; publicInputs := [];
              verification_network := devnet |}
           wallet_key wallet_signs "Invalid public key input").
  vm_compute. reflexivity.
Defined.

(** X23. [requestAirdrop] refuses on mainnet before asking anything of
    the connection.  On the other networks it asks for [amount] times
    [LAMPORTS_PER_SOL] lamports, then for the confirmation of the signature
    it got, and returns that signature; when the request itself fails,
    nothing is confirmed. *)
Theorem requestAirdrop_behaviour (n : DeploymentNetwork)
    (faucet : PublicKey → Z → outcome string)
    (confirmed : string → outcome SignatureResult)
    (publicKey : PublicKey) (amount : Z) (t : list faucet_call) :
  requestAirdrop mainnet_beta faucet confirmed publicKey amount t
    = (Thrown "Airdrop not available on mainnet", t)
  ∧ (n ≠ mainnet_beta →
     requestAirdrop n faucet confirmed publicKey amount t
     = match faucet publicKey (amount * 1000000000)%Z with
       | Returned signature =>
           (match confirmed signature with
            | Returned _ => Returned signature
            | Thrown e => Thrown e
            end,
            t ++ [requestAirdrop_call publicKey (amount * 1000000000)%Z;
                  confirmTransaction_call signature])
       | Thrown e =>
           (Thrown e, t ++ [requestAirdrop_call publicKey (amount * 1000000000)%Z])
       end).
Proof.
  split; [done|]. intros Hn.
  destruct n; [|done|]; unfold requestAirdrop; run;
    (destruct (faucet publicKey _) as [signature|]; run; [|done];
     destruct (confirmed signature); run; by rewrite <- app_assoc).
Qed.

Lemma requestAirdrop_behaviour_witness :
  requestAirdrop devnet (λ _ _, Returned signature1) (λ _, Returned {| err := None |})
    wallet_key 2 []
  = (Returned signature1,
     [] ++ [requestAirdrop_call wallet_key (2 * 1000000000)%Z;
            confirmTransaction_call signature1]).
Proof.
  apply (proj2 (requestAirdrop_behaviour devnet (λ _ _, Returned signature1)
                  (λ _, Returned {| err := None |}) wallet_key 2 [])).
  discriminate.
Defined.

End SunspotMore.

